(** * Link registry and link handshake of the mesh core (src/core/link.go)

    A shallow embedding of [links] (the registry of active links) and of
    [link.handler] (the per-connection handshake and lifetime), followed by
    the properties of the registry, of the handshake and of [call]/[stop].

    Conventions.
    - Go pointers to [link] objects are addresses into a store ([heap]), so
      that the registry maps a [linkInfo] to an address, as the Go map
      holds [*link].
    - Go channels are addresses into a store of channel states.
    - Calls that leave this file (the raw connection, the tunnel engine,
      the TCP adapter) are recorded in an event log; what they answer is
      supplied by an environment record.
    - A panic is an explicit outcome. *)

From stdpp Require Import gmap strings list fin_maps pretty.
From Stdlib Require Import ZArith.
From Stdlib.Strings Require Import Byte Ascii.

Local Open Scope Z_scope.

(** ** Bytes, hexadecimal strings and keys *)

#[global] Instance byte_eq : EqDecision byte := λ a b,
  match Byte.eqb a b as r return Byte.eqb a b = r → Decision (a = b) with
  | true => λ H, left (byte_dec_bl a b H)
  | false => λ H, right (Byte.eqb_false H)
  end eq_refl.

#[global] Instance byte_countable : Countable byte :=
  inj_countable Byte.to_N Byte.of_N Byte.of_to_N.

Definition error := string.

(** [ed25519.PublicKeySize] *)
Definition PublicKeySize : nat := 32.

(** [type keyArray [ed25519.PublicKeySize]byte]; the zero value is all
    zero bytes. *)
Definition keyArray := list byte.

Definition zeroKey : keyArray := replicate PublicKeySize x00.

(** Go's builtin [copy(dst, src)]: overwrites the first
    [min(len dst, len src)] cells of [dst] and keeps the others. *)
Definition copy (dst src : list byte) : list byte :=
  take (length dst) src ++ drop (length src) dst.

(** [var key keyArray; copy(key[:], src)] *)
Definition keyOf (src : list byte) : keyArray := copy zeroKey src.

(** [encoding/hex]: the table "0123456789abcdef". *)
Definition hextable (n : N) : ascii :=
  match n with
  | 0 => "0" | 1 => "1" | 2 => "2" | 3 => "3" | 4 => "4" | 5 => "5"
  | 6 => "6" | 7 => "7" | 8 => "8" | 9 => "9" | 10 => "a" | 11 => "b"
  | 12 => "c" | 13 => "d" | 14 => "e" | _ => "f"
  end%N%char.

(** [hex.EncodeToString] *)
Fixpoint EncodeToString (src : list byte) : string :=
  match src with
  | [] => EmptyString
  | b :: rest =>
      let v := Byte.to_N b in
      String (hextable (N.shiftr v 4))
        (String (hextable (N.land v 15)) (EncodeToString rest))
  end.

(** [hex.fromHexChar]: digits and both cases of a..f. *)
Definition fromHexChar (c : ascii) : option N :=
  let n := N_of_ascii c in
  if ((48 <=? n) && (n <=? 57))%N then Some (n - 48)%N
  else if ((97 <=? n) && (n <=? 102))%N then Some (n - 97 + 10)%N
  else if ((65 <=? n) && (n <=? 70))%N then Some (n - 65 + 10)%N
  else None.

(** [hex.DecodeString]: [None] stands for a non-nil error (a character
    that is no hex digit, or an odd length). *)
Fixpoint DecodeString (s : string) : option (list byte) :=
  match s with
  | EmptyString => Some []
  | String _ EmptyString => None
  | String p (String q rest) =>
      match fromHexChar p, fromHexChar q with
      | Some a, Some b =>
          match Byte.of_N (N.lor (N.shiftl a 4) b), DecodeString rest with
          | Some x, Some xs => Some (x :: xs)
          | _, _ => None
          end
      | _, _ => None
      end
  end.

(** ** The data model of link.go *)

(** [linkInfo] is used as a map key. *)
Record linkInfo := mkLinkInfo {
  key : keyArray;
  linkType : string;
  local : string;
  remote : string;
}.

#[global] Instance linkInfo_eq_dec : EqDecision linkInfo.
Proof. solve_decision. Defined.

#[global] Instance linkInfo_countable : Countable linkInfo :=
  inj_countable'
    (fun i => (key i, linkType i, local i, remote i))
    (fun t => match t with (k, ty, lo, re) => mkLinkInfo k ty lo re end)
    (fun i => match i with mkLinkInfo _ _ _ _ => eq_refl end).

(** [linkOptions]: [pinnedEd25519Keys] is a Go map used as a set, [None]
    is the nil map; [metric] is a uint8. *)
Record linkOptions := mkLinkOptions {
  pinnedEd25519Keys : option (gset keyArray);
  metric : Z;
}.

(** A [link]; [conn] names the raw connection, [closed] is the channel
    ([None] is nil).  The back pointer [links] is the one registry of the
    state below. *)
Record link := mkLink {
  lname : string;
  conn : nat;
  options : linkOptions;
  info : linkInfo;
  incoming : bool;
  force : bool;
  closed : option nat;
}.

(** [version_metadata] is declared next to the codec, outside link.go.  The
    record has the fields link.go reads and writes. *)
Module version.
Record metadata := mkMetadata {
  ver : Z;
  minorVer : Z;
  key : list byte;
  metric : Z;
}.
End version.

(** The metadata codec link.go calls: [version_getBaseMetadata()],
    [meta.encode()], [meta.decode(bs)] ([None] when it answers false) and
    [meta.check()].  It is a parameter of the development. *)
Record version_codec := mkCodec {
  version_getBaseMetadata : version.metadata;
  encode : version.metadata → list byte;
  decode : list byte → option version.metadata;
  check : version.metadata → bool;
}.

(** [tcpOptions] (declared with the TCP adapter): the embedded
    [linkOptions] and the fields [call] fills in.  [upgrade] is a pointer,
    the only value [call] stores there is [l.tcp.tls.forDialer]. *)
Inductive TcpUpgrade := tls_forDialer.

Record tcpOptions := mkTcpOptions {
  tcp_linkOptions : linkOptions;
  upgrade : option TcpUpgrade;
  socksProxyAddr : string;
  socksProxyAuth : option (string * string);
}.

(** ** State, events and outcomes *)

Inductive event :=
  | EvConnClose (c : nat)                          (* conn.Close() *)
  | EvChanClose (ch : nat)                         (* close(ch) *)
  | EvInsert (i : linkInfo) (p : nat)              (* links[info] = intf *)
  | EvDelete (i : linkInfo)                        (* delete(links, info) *)
  | EvHandleConn (k : keyArray) (c : nat) (m : Z)  (* PacketConn.HandleConn *)
  | EvTcpInit                                      (* tcp.init(l) *)
  | EvTcpCall (saddr : string) (o : tcpOptions) (sintf : string)
  | EvTcpStop.                                     (* tcp.stop() *)

#[global] Instance linkOptions_eq_dec : EqDecision linkOptions.
Proof. solve_decision. Defined.

#[global] Instance TcpUpgrade_eq_dec : EqDecision TcpUpgrade.
Proof. solve_decision. Defined.

#[global] Instance tcpOptions_eq_dec : EqDecision tcpOptions.
Proof. solve_decision. Defined.

#[global] Instance event_eq_dec : EqDecision event.
Proof. solve_decision. Defined.

(** The registry [links] with the stores its pointers and channels point
    into.  [links] is the Go map of the same name, [stopped] the stop
    channel, [chans] maps a channel to "has been closed", [events] is the
    log, most recent first. *)
Record world := mkWorld {
  heap : list link;
  links : gmap linkInfo nat;
  stopped : option nat;
  chans : list bool;
  events : list event;
}.

Definition emit (e : event) (w : world) : world :=
  mkWorld (heap w) (links w) (stopped w) (chans w) (e :: events w).

Definition store (p : nat) (l : link) (w : world) : world :=
  mkWorld (<[p:=l]> (heap w)) (links w) (stopped w) (chans w) (events w).

Definition set_links (m : gmap linkInfo nat) (w : world) : world :=
  mkWorld (heap w) m (stopped w) (chans w) (events w).

(** [make(chan struct{})]: a new, open channel. *)
Definition make_chan (w : world) : nat * world :=
  (length (chans w),
   mkWorld (heap w) (links w) (stopped w) (chans w ++ [false]) (events w)).

(** [close(ch)]: [None] is the panic Go raises on a nil channel and on a
    channel that is closed already. *)
Definition close_chan (ch : option nat) (w : world) : option world :=
  match ch with
  | None => None
  | Some c =>
      match chans w !! c with
      | Some false =>
          Some (mkWorld (heap w) (links w) (stopped w)
                        (<[c:=true]> (chans w)) (EvChanClose c :: events w))
      | _ => None
      end
  end.

Inductive result (A : Type) :=
  | Returns (a : A)
  | Panics.
Arguments Returns {A} a.
Arguments Panics {A}.

(** What [util.FuncTimeout(d, f)] reports: [TimedOut] when it answers
    false, [Completed a] when [f] ran to its end within [d] and left [a]. *)
Inductive timed (A : Type) :=
  | TimedOut
  | Completed (a : A).
Arguments TimedOut {A}.
Arguments Completed {A} a.

(** [time.Second], in nanoseconds. *)
Definition Second : Z := 1000000000.

(** The environment of one run of [handler]: what the two timed
    operations on the connection answer (given the deadline, the
    connection, and the bytes written or the size of the buffer), the
    allow-list the configuration holds, and the error with which the
    tunnel engine comes back. *)
Record netio := mkNetio {
  conn_Write : Z → nat → list byte → timed (Z * option error);
  conn_ReadFull : Z → nat → nat → timed (Z * option error * list byte);
  AllowedPublicKeys : list string;
  HandleConn : keyArray → nat → Z → option error;
}.

(** Conversion of a uint8 to uint64. *)
Definition uint64 (x : Z) : Z := x mod 2 ^ 64.

(** Conversion of a uint64 to uint8. *)
Definition uint8 (x : Z) : Z := x mod 2 ^ 8.

(** ** [links.init], [links.create], [links.stop], [link.close] *)

(** [links.init(c)]; [tcp_err] is what [tcp.init] answers. *)
Definition links_init (tcp_err : option error) (w : world)
  : world * option error :=
  let w := set_links ∅ w in
  let '(ch, w) := make_chan w in
  let w := mkWorld (heap w) (links w) (Some ch) (chans w) (events w) in
  (emit EvTcpInit w, tcp_err).

(** [links.create(conn, name, linkType, local, remote, incoming, force,
    options)]: the new link object, not yet in the store, and a nil error. *)
Definition links_create (conn : nat) (name linkType local remote : string)
    (incoming force : bool) (options : linkOptions) : link * option error :=
  (mkLink name conn options (mkLinkInfo zeroKey linkType local remote)
          incoming force None,
   None).

(** [links.stop()]; [tcp_err] is what [tcp.stop] answers. *)
Definition links_stop (tcp_err : option error) (w : world)
  : world * result (option error) :=
  match close_chan (stopped w) w with
  | None => (w, Panics)
  | Some w => (emit EvTcpStop w, Returns tcp_err)
  end.

(** [link.close()] *)
Definition link_close (intf : link) (w : world) : world :=
  emit (EvConnClose (conn intf)) w.

(** ** [link.handler] *)

(** The allow-list loop of lines 207-213, started with
    [isallowed := len(allowed) == 0]. *)
Fixpoint scan_allowed (h : string) (allowed : list string) (isallowed : bool)
  : bool :=
  match allowed with
  | [] => isallowed
  | k :: rest => if String.eqb k h then true else scan_allowed h rest isallowed
  end.

Definition set_info_key (intf : link) (k : keyArray) : link :=
  mkLink (lname intf) (conn intf) (options intf)
         (mkLinkInfo k (linkType (info intf)) (local (info intf))
                     (remote (info intf)))
         (incoming intf) (force intf) (closed intf).

Definition set_closed (intf : link) (ch : option nat) : link :=
  mkLink (lname intf) (conn intf) (options intf) (info intf)
         (incoming intf) (force intf) ch.

(** How far the checks of lines 148-219 get: a fatal error, the silent
    refusal of the allow-list, or the remote metadata with the metric for
    the tunnel engine. *)
Inductive verdict :=
  | Fatal (err : error)
  | Forbidden
  | Accepted (meta : version.metadata) (m : Z).

(** Where [handler] stands when [handler_enter] is over: it has returned,
    or it is inside [HandleConn] with this key and metric. *)
Inductive progress :=
  | Exit (r : result (option nat * option error))
  | InTunnel (k : keyArray) (m : Z).

Section Handler.
Variable V : version_codec.
(** [intf.links.core.public] *)
Variable public : list byte.

(** Lines 148-150: the metadata this node sends. *)
Definition handler_metadata (intf : link) : version.metadata :=
  let base := version_getBaseMetadata V in
  version.mkMetadata (version.ver base) (version.minorVer base)
                     public (metric (options intf)).

(** Lines 152-183: the metadata exchange, each half under its own
    [util.FuncTimeout(30*time.Second, ...)], and the decoding.  An error
    ends [handler]; otherwise the remote metadata comes out. *)
Definition handler_exchange (intf : link) (io : netio)
  : error + version.metadata :=
  let metaBytes := encode V (handler_metadata intf) in
  match conn_Write io (30 * Second) (conn intf) metaBytes with
  | TimedOut => inl "timeout on metadata send"%string
  | Completed (n, err) =>
  let err := match err with
             | None => if bool_decide (n ≠ Z.of_nat (length metaBytes))
                       then Some "incomplete metadata send"%string else None
             | Some e => Some e
             end in
  match err with
  | Some e => inl e
  | None =>
  match conn_ReadFull io (30 * Second) (conn intf) (length metaBytes) with
  | TimedOut => inl "timeout on metadata recv"%string
  | Completed (n, err, data) =>
  let metaBytes := copy metaBytes data in
  let err := match err with
             | None => if bool_decide (n ≠ Z.of_nat (length metaBytes))
                       then Some "incomplete metadata recv"%string else None
             | Some e => Some e
             end in
  match err with
  | Some e => inl e
  | None =>
  match decode V metaBytes with
  | None => inl "failed to decode metadata"%string
  | Some meta => inr meta
  end end end end end.

(** Lines 148-219: the exchange, then the metric (lines 151, 184-186), the
    version check, the pinned keys and the allow-list. *)
Definition handler_validate (intf : link) (io : netio) : verdict :=
  let metric := uint64 (version.metric (handler_metadata intf)) in
  match handler_exchange intf io with
  | inl e => Fatal e
  | inr meta =>
  let metric := if metric <? uint64 (version.metric meta)
                then uint64 (version.metric meta) else metric in
  if negb (check V meta) then Fatal "remote node is incompatible version"
  else
  let mismatch := match pinnedEd25519Keys (options intf) with
                  | Some pinned =>
                      bool_decide (keyOf (version.key meta) ∉ pinned)
                  | None => false
                  end in
  if mismatch
  then Fatal "failed to connect: host sent ed25519 key that does not match pinned keys"
  else
  let allowed := AllowedPublicKeys io in
  let isallowed :=
    scan_allowed (EncodeToString (version.key meta)) allowed
                 (bool_decide (length allowed = 0%nat)) in
  if incoming intf && negb (force intf) && negb isallowed
  then Forbidden
  else Accepted meta metric
  end.

(** The ways in which the metadata exchange can go wrong on the
    connection, with the error of each: the deadline of either half
    expires, a half comes back with an error, or it moves another number
    of bytes than the metadata has. *)
Definition sent (intf : link) (io : netio) : Prop :=
  let metaBytes := encode V (handler_metadata intf) in
  conn_Write io (30 * Second) (conn intf) metaBytes
  = Completed (Z.of_nat (length metaBytes), None).

Inductive exchange_fails (intf : link) (io : netio) : error → Prop :=
  | send_timeout :
      conn_Write io (30 * Second) (conn intf)
                 (encode V (handler_metadata intf)) = TimedOut →
      exchange_fails intf io "timeout on metadata send"
  | send_short n :
      conn_Write io (30 * Second) (conn intf)
                 (encode V (handler_metadata intf)) = Completed (n, None) →
      n ≠ Z.of_nat (length (encode V (handler_metadata intf))) →
      exchange_fails intf io "incomplete metadata send"
  | send_error n e :
      conn_Write io (30 * Second) (conn intf)
                 (encode V (handler_metadata intf)) = Completed (n, Some e) →
      exchange_fails intf io e
  | recv_timeout :
      sent intf io →
      conn_ReadFull io (30 * Second) (conn intf)
                    (length (encode V (handler_metadata intf))) = TimedOut →
      exchange_fails intf io "timeout on metadata recv"
  | recv_short n data :
      sent intf io →
      conn_ReadFull io (30 * Second) (conn intf)
                    (length (encode V (handler_metadata intf)))
      = Completed (n, None, data) →
      n ≠ Z.of_nat (length (encode V (handler_metadata intf))) →
      exchange_fails intf io "incomplete metadata recv"
  | recv_error n e data :
      sent intf io →
      conn_ReadFull io (30 * Second) (conn intf)
                    (length (encode V (handler_metadata intf)))
      = Completed (n, Some e, data) →
      exchange_fails intf io e.

(** [handler] up to the call of [HandleConn] (lines 145-247).  On every
    return the deferred [intf.conn.Close()] of line 147 runs. *)
Definition handler_enter (w : world) (p : nat) (io : netio)
  : world * progress :=
  match heap w !! p with
  | None => (w, Exit Panics)
  | Some intf =>
      match handler_validate intf io with
      | Fatal e =>
          (emit (EvConnClose (conn intf)) w, Exit (Returns (None, Some e)))
      | Forbidden =>
          (emit (EvConnClose (conn intf)) (link_close intf w),
           Exit (Returns (None, None)))
      | Accepted meta m =>
          (* line 221 *)
          let intf := set_info_key intf
                        (copy (key (info intf)) (version.key meta)) in
          let w := store p intf w in
          (* lines 222-240, under the mutex *)
          match links w !! info intf with
          | Some old =>
              match heap w !! old with
              | Some oldIntf =>
                  (emit (EvConnClose (conn intf)) w,
                   Exit (Returns (closed oldIntf, None)))
              | None => (emit (EvConnClose (conn intf)) w, Exit Panics)
              end
          | None =>
              let '(ch, w) := make_chan w in
              let intf := set_closed intf (Some ch) in
              let w := store p intf w in
              let w := emit (EvInsert (info intf) p)
                            (set_links (<[info intf := p]> (links w)) w) in
              (* line 247 *)
              (emit (EvHandleConn (key (info intf)) (conn intf) m) w,
               InTunnel (key (info intf)) m)
          end
      end
  end.

(** [handler] from the return of [HandleConn] with [err] (lines 248-256):
    the deferred function of lines 232-237, then the deferred
    [intf.conn.Close()].  A panic in the first does not stop the second. *)
Definition handler_leave (w : world) (p : nat) (err : option error)
  : world * result (option nat * option error) :=
  match heap w !! p with
  | None => (w, Panics)
  | Some intf =>
      let w := emit (EvDelete (info intf))
                    (set_links (delete (info intf) (links w)) w) in
      match close_chan (closed intf) w with
      | Some w => (emit (EvConnClose (conn intf)) w, Returns (None, err))
      | None => (emit (EvConnClose (conn intf)) w, Panics)
      end
  end.

(** [link.handler()], run with nothing
    else touching the state while the tunnel engine holds the
    connection. *)
Definition handler (w : world) (p : nat) (io : netio)
  : world * result (option nat * option error) :=
  match handler_enter w p io with
  | (w, Exit r) => (w, r)
  | (w, InTunnel k m) =>
      match heap w !! p with
      | Some intf => handler_leave w p (HandleConn io k (conn intf) m)
      | None => (w, Panics)
      end
  end.
End Handler.

(** ** [links.call] *)

(** [url.Userinfo]: the user name and the password ([Password()] hands out
    the stored password, empty when none was set). *)
Record Userinfo := mkUserinfo {
  Username : string;
  Password : string;
}.

(** The parts of a [url.URL] that [call] reads; [Query] is the map
    [u.Query()] builds. *)
Record URL := mkURL {
  Scheme : string;
  User : option Userinfo;
  Host : string;
  Path : string;
  Query : gmap string (list string);
}.

(** The digit loop of [strconv.ParseUint(s, 10, 8)]: a character that is
    no decimal digit gives 0 (syntax error), a value above 255 gives 255
    (range error) at the digit where it is exceeded. *)
Fixpoint ParseUint_digits (s : string) (n : Z) : Z :=
  match s with
  | EmptyString => n
  | String c rest =>
      let d := Z.of_N (N_of_ascii c) - 48 in
      if (0 <=? d) && (d <=? 9) then
        let n1 := n * 10 + d in
        if 255 <? n1 then 255 else ParseUint_digits rest n1
      else 0
  end.

Definition ParseUint (s : string) : Z :=
  match s with
  | EmptyString => 0
  | _ => ParseUint_digits s 0
  end.

Fixpoint TrimLeft_slash (s : string) : string :=
  match s with
  | String "/" rest => TrimLeft_slash rest
  | _ => s
  end.

Fixpoint TrimRight_slash (s : string) : string :=
  match s with
  | EmptyString => EmptyString
  | String c rest =>
      match TrimRight_slash rest with
      | EmptyString => if Ascii.eqb c "/" then EmptyString
                       else String c EmptyString
      | t => String c t
      end
  end.

(** [strings.Trim(s, "/")] *)
Definition Trim_slash (s : string) : string :=
  TrimRight_slash (TrimLeft_slash s).

(** [strings.Split(s, "/")[0]]: the part of [s] before its first slash. *)
Fixpoint Split_slash_0 (s : string) : string :=
  match s with
  | EmptyString => EmptyString
  | String c rest => if Ascii.eqb c "/" then EmptyString
                     else String c (Split_slash_0 rest)
  end.

(** Lines 86-92: the keys that decode go into the set, cut or padded to
    the size of a key. *)
Definition pin_keys (pubkeys : list string) : gset keyArray :=
  foldl (fun pinned pubkey =>
           match DecodeString pubkey with
           | Some sigPub => {[ keyOf sigPub ]} ∪ pinned
           | None => pinned
           end) ∅ pubkeys.

(** Lines 83-97: the options [call] builds from the query. *)
Definition call_options (u : URL) : linkOptions :=
  let pinned :=
    match Query u !! "ed25519"%string with
    | Some pubkeys =>
        if bool_decide (0 < length pubkeys)%nat
        then Some (pin_keys pubkeys) else None
    | None => None
    end in
  let metric :=
    match Query u !! "metric"%string with
    | Some [ms] => uint8 (ParseUint ms)
    | _ => 0
    end in
  mkLinkOptions pinned metric.

(** [func (l *links) call(u *url.URL, sintf string) error].  [tcp.call]
    starts the dial on its own and answers nothing. *)
Definition links_call (u : URL) (sintf : string) (w : world)
  : world * option error :=
  let opts := call_options u in
  if String.eqb (Scheme u) "tcp" then
    (emit (EvTcpCall (Host u) (mkTcpOptions opts None "" None) sintf) w, None)
  else if String.eqb (Scheme u) "socks" then
    let auth := match User u with
                | Some ui => Some (Username ui, Password ui)
                | None => None
                end in
    let pathtoken := Split_slash_0 (Trim_slash (Path u)) in
    (emit (EvTcpCall pathtoken (mkTcpOptions opts None (Host u) auth) sintf) w,
     None)
  else if String.eqb (Scheme u) "tls" then
    (emit (EvTcpCall (Host u) (mkTcpOptions opts (Some tls_forDialer) "" None)
                     sintf) w,
     None)
  else (w, Some ("unknown call scheme: " +:+ Scheme u)).

(** ** Counting events *)

(** Number of times [e] is in a log. *)
Definition count_event (e : event) (evs : list event) : nat :=
  length (filter (λ x, x = e) evs).

(** Number of [conn.Close()] calls on [c], and of closings of the channel
    [ch]. *)
Definition closes (c : nat) (evs : list event) : nat :=
  count_event (EvConnClose c) evs.

Definition fired (ch : nat) (evs : list event) : nat :=
  count_event (EvChanClose ch) evs.

Definition is_insert (e : event) : bool :=
  match e with EvInsert _ _ => true | _ => false end.

Definition is_delete (e : event) : bool :=
  match e with EvDelete _ => true | _ => false end.

Definition is_handle (e : event) : bool :=
  match e with EvHandleConn _ _ _ => true | _ => false end.

(** Number of insertions into, and of deletions from, the registry. *)
Definition inserts (evs : list event) : nat :=
  length (filter (λ e, is_insert e = true) evs).

Definition deletes (evs : list event) : nat :=
  length (filter (λ e, is_delete e = true) evs).

Definition handoffs (evs : list event) : nat :=
  length (filter (λ e, is_handle e = true) evs).

(** ** The registry under concurrent handlers *)

(** Where the goroutine that runs [handler] for a link stands: not yet
    past the checks, inside [HandleConn], or returned. *)
Inductive pc := Created | Tunnel | Exited.

(** The state with one program counter per link object. *)
Record system := mkSystem {
  mem : world;
  procs : list pc;
}.

Definition alloc (l : link) (w : world) : world :=
  mkWorld (heap w ++ [l]) (links w) (stopped w) (chans w) (events w).

Definition world0 : world := mkWorld [] ∅ None [] [].

(** The state [links.init] leaves when the adapter starts. *)
Definition system0 : system := mkSystem (links_init None world0).1 [].

Definition pc_after (pr : progress) : pc :=
  match pr with
  | Exit _ => Exited
  | InTunnel _ _ => Tunnel
  end.

Section Steps.
Variable V : version_codec.
Variable public : list byte.

(** One atomic step.  The registry is touched under the mutex only, and
    everything else [handler] touches belongs to its own link, so the part
    of [handler] before [HandleConn] and the part after it are each one
    step; the steps of different links interleave freely. *)
Inductive step : system → system → Prop :=
  | step_spawn s conn name linkType local remote incoming force options :
      step s
        (mkSystem
           (alloc (links_create conn name linkType local remote incoming
                                force options).1 (mem s))
           (procs s ++ [Created]))
  | step_enter s p io w' pr :
      procs s !! p = Some Created →
      handler_enter V public (mem s) p io = (w', pr) →
      step s (mkSystem w' (<[p:=pc_after pr]> (procs s)))
  | step_leave s p err w' r :
      procs s !! p = Some Tunnel →
      handler_leave (mem s) p err = (w', r) →
      step s (mkSystem w' (<[p:=Exited]> (procs s)))
  | step_call s u sintf :
      step s (mkSystem (links_call u sintf (mem s)).1 (procs s))
  | step_stop s tcp_err w' e :
      links_stop tcp_err (mem s) = (w', Returns e) →
      step s (mkSystem w' (procs s)).

Inductive reachable : system → Prop :=
  | reachable_init : reachable system0
  | reachable_step s s' : reachable s → step s s' → reachable s'.

(** A live link: its handler is inside [HandleConn]. *)
Definition live (s : system) (p : nat) : Prop :=
  procs s !! p = Some Tunnel.

(** What holds of every reachable state. *)
Record consistent (s : system) : Prop := mkConsistent {
  con_procs : length (procs s) = length (heap (mem s));
  con_entry : ∀ k p, links (mem s) !! k = Some p →
    live s p ∧ ∃ l, heap (mem s) !! p = Some l ∧ info l = k;
  con_live : ∀ p, live s p →
    ∃ l c, heap (mem s) !! p = Some l ∧ links (mem s) !! info l = Some p ∧
           closed l = Some c ∧ chans (mem s) !! c = Some false;
  con_chan : ∀ p l c, heap (mem s) !! p = Some l → closed l = Some c →
    (c < length (chans (mem s)))%nat ∧ stopped (mem s) ≠ Some c ∧
    procs s !! p ≠ Some Created;
  con_own : ∀ p p' l l' c,
    heap (mem s) !! p = Some l → heap (mem s) !! p' = Some l' →
    closed l = Some c → closed l' = Some c → p = p';
  con_stop : ∀ c, stopped (mem s) = Some c →
    (c < length (chans (mem s)))%nat;
  con_fired : ∀ c, fired c (events (mem s))
    = match chans (mem s) !! c with Some true => 1%nat | _ => 0%nat end;
}.
End Steps.

(** The link with the key of line 221. *)
Definition keyed (intf : link) (meta : version.metadata) : link :=
  set_info_key intf (copy (key (info intf)) (version.key meta)).

(** The state line 240 leaves, with the call of line 247 logged. *)
Definition registered (w : world) (p : nat) (intf : link)
    (meta : version.metadata) (m : Z) : world :=
  let intf1 := keyed intf meta in
  mkWorld (<[p:=set_closed intf1 (Some (length (chans w)))]> (heap w))
          (<[info intf1:=p]> (links w))
          (stopped w)
          (chans w ++ [false])
          (EvHandleConn (key (info intf1)) (conn intf) m
             :: EvInsert (info intf1) p :: events w).

(** The state in which [handler] returns after it has registered its link
    and the tunnel engine has come back: the deferred function of lines
    232-237 and the deferred [Close()] have run. *)
Definition departed (w : world) (p : nat) (intf : link)
    (meta : version.metadata) (m : Z) : world :=
  let intf1 := keyed intf meta in
  let ch := length (chans w) in
  mkWorld (<[p:=set_closed intf1 (Some ch)]> (heap w))
          (links w)
          (stopped w)
          (<[ch:=true]> (chans w ++ [false]))
          (EvConnClose (conn intf) :: EvChanClose ch
             :: EvDelete (info intf1)
             :: EvHandleConn (key (info intf1)) (conn intf) m
             :: EvInsert (info intf1) p :: events w).

(** The remote key passes the pinned keys of the options: none are
    configured, or it is one of them. *)
Definition pinned_ok (o : linkOptions) (meta : version.metadata) : Prop :=
  ∀ pinned, pinnedEd25519Keys o = Some pinned →
            keyOf (version.key meta) ∈ pinned.

(** The schemes [call] knows. *)
Definition call_schemes : list string := ["tcp"; "socks"; "tls"]%string.

(** ** A sample codec and sample runs *)

Definition byte_of_Z (z : Z) : byte :=
  default x00 (Byte.of_N (Z.to_N (z mod 256))).

Definition Z_of_byte (b : byte) : Z := Z.of_N (Byte.to_N b).

(** Modelled from the spec: the metadata codec lives outside link.go.  The
    wire format is the fixed-size header of the external interfaces: major
    version (1 byte), minor version (1 byte), identity (a public key,
    [PublicKeySize] bytes), metric (1 byte); decoding answers not-ok on any
    other length; [check] accepts the same major version.  The version
    numbers of the base metadata are sample values. *)
Definition sample_base : version.metadata := version.mkMetadata 0 4 [] 0.

Definition sample_encode (m : version.metadata) : list byte :=
  byte_of_Z (version.ver m) :: byte_of_Z (version.minorVer m) ::
  keyOf (version.key m) ++ [byte_of_Z (version.metric m)].

Definition sample_decode (bs : list byte) : option version.metadata :=
  match bs with
  | major :: minor :: rest =>
      match drop PublicKeySize rest with
      | [m] => Some (version.mkMetadata (Z_of_byte major) (Z_of_byte minor)
                       (take PublicKeySize rest) (Z_of_byte m))
      | _ => None
      end
  | _ => None
  end.

Definition sample_check (m : version.metadata) : bool :=
  bool_decide (version.ver m = version.ver sample_base).

Definition sample_codec : version_codec :=
  mkCodec sample_base sample_encode sample_decode sample_check.

(** Keys of this node and of two remote nodes. *)
Definition own_key : list byte := replicate PublicKeySize x01.
Definition key_a : list byte := replicate PublicKeySize x0a.
Definition key_b : list byte := replicate PublicKeySize x0b.

(** An environment in which the write completes, the read delivers
    [reply], the configuration holds [allowed] and the tunnel engine comes
    back with [err]. *)
Definition answering (reply : list byte) (allowed : list string)
    (err : option error) : netio :=
  mkNetio (λ _ _ bs, Completed (Z.of_nat (length bs), None))
          (λ _ _ n, Completed (Z.of_nat n, None, reply))
          allowed
          (λ _ _ _, err).

(** The metadata of a remote node of the same version, and the bytes it
    sends. *)
Definition remote_meta (k : list byte) (m : Z) : version.metadata :=
  version.mkMetadata 0 4 k m.

Definition hello (k : list byte) (m : Z) : list byte :=
  sample_encode (remote_meta k m).

(** The metadata a remote node of another major version sends. *)
Definition hello_v1 (k : list byte) (m : Z) : list byte :=
  sample_encode (version.mkMetadata 1 0 k m).

(** An outgoing link without pinned keys, and an incoming one. *)
Definition sample_out (c : nat) (m : Z) : link :=
  (links_create c "out" "tcp" "10.0.0.1:1000" "10.0.0.2:2000" false false
                (mkLinkOptions None m)).1.

Definition sample_in (c : nat) : link :=
  (links_create c "in" "tcp" "10.0.0.1:1000" "10.0.0.3:3000" true false
                (mkLinkOptions None 0)).1.

(** An outgoing link whose options pin [pinned]. *)
Definition sample_pinned (c : nat) (inc : bool) (pinned : gset keyArray)
  : link :=
  (links_create c "pin" "tcp" "10.0.0.1:1000" "10.0.0.2:2000" inc false
                (mkLinkOptions (Some pinned) 0)).1.

(** One link spawned; the same link registered and in the tunnel; a second
    link to the same peer and addresses spawned next to it. *)
Definition sys_spawned : system :=
  mkSystem (alloc (sample_out 7 3) (mem system0)) (procs system0 ++ [Created]).

Definition sys_registered : system :=
  let r := handler_enter sample_codec own_key (mem sys_spawned) 0
                         (answering (hello key_a 9) [] None) in
  mkSystem r.1 (<[0%nat:=pc_after r.2]> (procs sys_spawned)).

Definition sys_second : system :=
  mkSystem (alloc (sample_out 8 5) (mem sys_registered))
           (procs sys_registered ++ [Created]).


(** Environments in which the exchange goes wrong. *)
Definition send_times_out : netio :=
  mkNetio (λ _ _ _, TimedOut) (λ _ _ n, Completed (Z.of_nat n, None, []))
          [] (λ _ _ _, None).

Definition recv_is_short : netio :=
  mkNetio (λ _ _ bs, Completed (Z.of_nat (length bs), None))
          (λ _ _ n, Completed (Z.of_nat n - 1, None, []))
          [] (λ _ _ _, None).

(** The initial registry with one link in the store. *)
Definition one_link (l : link) : world := alloc l (mem system0).


(** A URL of a scheme [call] does not know. *)
Definition url_quic : URL := mkURL "quic" None "10.0.0.2:2000" "" ∅.

(** A proxied URL. *)
Definition url_socks : URL :=
  mkURL "socks" (Some (mkUserinfo "u" "pw")) "proxy:1080" "/10.0.0.2:2000/" ∅.

(** The initial registry with one incoming link spawned. *)
Definition sys_incoming : system :=
  mkSystem (one_link (sample_in 1)) (procs system0 ++ [Created]).

(** An allow-list that holds neither [key_a] nor [key_b]. *)
Definition allow_other : list string := [EncodeToString own_key].

(** ** The accessors of [link] (lines 263-277) *)





(** ** Notions used in the further properties *)

(** The characters of a string. *)
Fixpoint chars (s : string) : list ascii :=
  match s with
  | EmptyString => []
  | String c rest => c :: chars rest
  end.

(** A character of the table of [encoding/hex]. *)
Definition lower_hex (c : ascii) : Prop :=
  c ∈ chars "0123456789abcdef".



(** The state of the closure channel of a link, by the stand of its
    handler: nil before registration, open and registered while the
    handler is in the tunnel engine, closed and not registered after. *)
Definition lifecycle (s : system) (p : nat) (l : link) : Prop :=
  match procs s !! p with
  | Some Created => closed l = None ∧ links (mem s) !! info l ≠ Some p
  | Some Tunnel =>
      ∃ c, closed l = Some c ∧ chans (mem s) !! c = Some false ∧
           links (mem s) !! info l = Some p
  | Some Exited =>
      links (mem s) !! info l ≠ Some p ∧
      ∀ c, closed l = Some c → chans (mem s) !! c = Some true
  | None => False
  end.

(** A URL with the given query and nothing else of interest. *)
Definition url_query (q : gmap string (list string)) : URL :=
  mkURL "tcp" None "10.0.0.2:2000" "" q.

(** A codec that decodes nothing. *)
Definition deaf_codec : version_codec :=
  mkCodec sample_base sample_encode (λ _, None) sample_check.

(** The initial registry with two links to the same peer and addresses in
    the store. *)
Definition two_links : world :=
  alloc (sample_out 8 5) (one_link (sample_out 7 3)).

(** What holds of the links of every reachable state beyond
    [consistent]. *)
Record settled (s : system) : Prop := mkSettled {
  set_key : ∀ q l, heap (mem s) !! q = Some l →
    length (key (info l)) = PublicKeySize ∧
    (procs s !! q = Some Created → key (info l) = zeroKey ∧ closed l = None);
  set_exited : ∀ p l c, heap (mem s) !! p = Some l →
    procs s !! p = Some Exited → closed l = Some c →
    chans (mem s) !! c = Some true;
}.

(** A URL that pins [key_a] by its hexadecimal text, and a link with the
    options [call] builds from it. *)
Definition url_pin_a : URL :=
  url_query {[ "ed25519"%string := [EncodeToString key_a] ]}.

Definition sample_pin_a (c : nat) : link :=
  (links_create c "out" "tcp" "10.0.0.1:1000" "10.0.0.2:2000" false false
                (call_options url_pin_a)).1.

(** The link of [sys_registered] as its handler has left it in the
    store. *)
Definition registered_link : link :=
  set_closed (keyed (sample_out 7 3) (remote_meta key_a 9)) (Some 1%nat).

(** A URL with one [metric] parameter. *)
Definition url_metric_7 : URL :=
  url_query {[ "metric"%string := ["7"%string] ]}.

(** ** The standard functions the model uses, on samples *)

Example ParseUint_ok : ParseUint "200" = 200. Proof. reflexivity. Qed.
Example ParseUint_range : ParseUint "256" = 255. Proof. reflexivity. Qed.
Example ParseUint_syntax : ParseUint "12a" = 0. Proof. reflexivity. Qed.
Example Trim_Split : Split_slash_0 (Trim_slash "//host:1/x/") = "host:1"%string.
Proof. reflexivity. Qed.
Example Trim_only : Trim_slash "/a/b//" = "a/b"%string.
Proof. reflexivity. Qed.
Example hex_roundtrip :
  DecodeString (EncodeToString [x00; x1f; xa0; xff]) = Some [x00; x1f; xa0; xff].
Proof. reflexivity. Qed.
Example hex_text : EncodeToString [x00; x1f; xa0; xff] = "001fa0ff"%string.
Proof. reflexivity. Qed.
Example hex_upper : DecodeString "AB" = Some [xab]. Proof. reflexivity. Qed.
Example hex_odd : DecodeString "abc" = None. Proof. reflexivity. Qed.
Example hex_bad : DecodeString "zz" = None. Proof. reflexivity. Qed.
Example hex_empty : DecodeString "" = Some []. Proof. reflexivity. Qed.

(** ** Counting *)

Lemma count_event_cons e x evs :
  count_event e (x :: evs)
  = ((if decide (x = e) then 1 else 0) + count_event e evs)%nat.
Proof.
  unfold count_event. rewrite filter_cons. by destruct (decide (x = e)).
Qed.

Lemma inserts_cons x evs :
  inserts (x :: evs) = ((if is_insert x then 1 else 0) + inserts evs)%nat.
Proof.
  unfold inserts. rewrite filter_cons.
  destruct (is_insert x); by destruct (decide _).
Qed.

Lemma deletes_cons x evs :
  deletes (x :: evs) = ((if is_delete x then 1 else 0) + deletes evs)%nat.
Proof.
  unfold deletes. rewrite filter_cons.
  destruct (is_delete x); by destruct (decide _).
Qed.

Lemma handoffs_cons x evs :
  handoffs (x :: evs) = ((if is_handle x then 1 else 0) + handoffs evs)%nat.
Proof.
  unfold handoffs. rewrite filter_cons.
  destruct (is_handle x); by destruct (decide _).
Qed.

Lemma fired_other c x evs :
  (∀ d, x ≠ EvChanClose d) → fired c (x :: evs) = fired c evs.
Proof.
  intros H. unfold fired. rewrite count_event_cons.
  by rewrite decide_False by apply H.
Qed.

Lemma fired_close c d evs :
  fired c (EvChanClose d :: evs)
  = ((if decide (c = d) then 1 else 0) + fired c evs)%nat.
Proof.
  unfold fired. rewrite count_event_cons.
  destruct (decide (c = d)) as [->|Hne].
  - by rewrite decide_True.
  - rewrite decide_False; [done|]. intros [=]. by apply Hne.
Qed.

(** ** Consistency of every reachable state *)

Lemma consistent_init : consistent system0.
Proof.
  split; cbn.
  - reflexivity.
  - intros k p H. rewrite lookup_empty in H. discriminate.
  - intros p H. unfold live in H. cbn in H. discriminate.
  - intros p l c H. discriminate.
  - intros p p' l l' c H. discriminate.
  - intros c [= <-]. lia.
  - intros c. by destruct c as [|[|c]].
Qed.

Lemma consistent_events s w :
  heap w = heap (mem s) → links w = links (mem s) →
  stopped w = stopped (mem s) → chans w = chans (mem s) →
  (∀ c, fired c (events w) = fired c (events (mem s))) →
  consistent s → consistent (mkSystem w (procs s)).
Proof.
  intros Hh Hl Hs Hc Hf [I1 I2 I3 I4 I5 I6 I7].
  split; unfold live in *; cbn; rewrite ?Hh, ?Hl, ?Hs, ?Hc; try assumption.
  intros c. by rewrite Hf.
Qed.

Lemma consistent_spawn s l :
  closed l = None → consistent s →
  consistent (mkSystem (alloc l (mem s)) (procs s ++ [Created])).
Proof.
  intros Hl [I1 I2 I3 I4 I5 I6 I7].
  assert (Hold : ∀ q x, heap (mem s) !! q = Some x →
                        (heap (mem s) ++ [l]) !! q = Some x).
  { intros q x Hq. rewrite lookup_app_l; [done|]. by eapply lookup_lt_Some. }
  assert (Hnew : ∀ q x, (heap (mem s) ++ [l]) !! q = Some x →
                        heap (mem s) !! q = Some x ∨
                        (q = length (heap (mem s)) ∧ x = l)).
  { intros q x Hq. apply lookup_app_Some in Hq as [Hq|[Hle Hq]]; [by left|].
    right. destruct (q - length (heap (mem s)))%nat as [|n] eqn:E; cbn in Hq;
      [|discriminate]. injection Hq as <-. split; [lia|done]. }
  assert (Hpc : ∀ q x, procs s !! q = Some x →
                       (procs s ++ [Created]) !! q = Some x).
  { intros q x Hq. rewrite lookup_app_l; [done|]. by eapply lookup_lt_Some. }
  split; unfold live in *; cbn.
  - rewrite !length_app. cbn. lia.
  - intros k p Hk. destruct (I2 k p Hk) as (Hp & x & Hx & Hi).
    split; [by apply Hpc|]. exists x. split; [by apply Hold|done].
  - intros p Hp. apply lookup_app_Some in Hp as [Hp|[Hle Hp]].
    + destruct (I3 p Hp) as (x & c & Hx & Hk & Hc & Hch).
      exists x, c. repeat split; try done. by apply Hold.
    + destruct (p - length (procs s))%nat; cbn in Hp; [|done]. discriminate.
  - intros p x c Hx Hc. apply Hnew in Hx as [Hx|[-> ->]]; [|congruence].
    destruct (I4 p x c Hx Hc) as (Hlt & Hst & Hpc').
    repeat split; try done. intros Hp. apply Hpc'.
    apply lookup_app_Some in Hp as [Hp|[Hle Hp]]; [done|].
    apply lookup_lt_Some in Hx. lia.
  - intros p p' x x' c Hx Hx' Hc Hc'.
    apply Hnew in Hx as [Hx|[-> ->]]; [|congruence].
    apply Hnew in Hx' as [Hx'|[-> ->]]; [|congruence].
    by eapply I5.
  - exact I6.
  - exact I7.
Qed.

(** A handler that returns before registering: its link may have got its
    key (line 221), nothing else changed. *)
Lemma consistent_exit s p intf k w :
  procs s !! p = Some Created → heap (mem s) !! p = Some intf →
  heap w = <[p:=set_info_key intf k]> (heap (mem s)) →
  links w = links (mem s) → stopped w = stopped (mem s) →
  chans w = chans (mem s) →
  (∀ c, fired c (events w) = fired c (events (mem s))) →
  consistent s → consistent (mkSystem w (<[p:=Exited]> (procs s))).
Proof.
  intros Hp Hi Hh Hl Hs Hc Hf [I1 I2 I3 I4 I5 I6 I7].
  assert (Hnone : closed intf = None).
  { destruct (closed intf) as [c|] eqn:E; [|done].
    by destruct (I4 p intf c Hi E) as (_ & _ & []). }
  assert (Hheap : ∀ q x, <[p:=set_info_key intf k]> (heap (mem s)) !! q = Some x →
            (q = p ∧ x = set_info_key intf k) ∨ (q ≠ p ∧ heap (mem s) !! q = Some x)).
  { intros q x Hq. apply list_lookup_insert_Some in Hq as [(-> & <- & _)|[Hne Hq]];
      [by left|right; split; [congruence|done]]. }
  split; unfold live in *; cbn; rewrite ?Hh, ?Hl, ?Hs, ?Hc.
  - by rewrite !length_insert.
  - intros i q Hq. destruct (I2 i q Hq) as (Hlive & x & Hx & Hinfo).
    assert (q ≠ p) by congruence.
    rewrite !list_lookup_insert_ne by done. eauto.
  - intros q Hq. apply list_lookup_insert_Some in Hq as [(_ & [=] & _)|[Hne Hq]].
    destruct (I3 q Hq) as (x & c & Hx & Hk & Hcl & Hch).
    exists x, c. by rewrite list_lookup_insert_ne.
  - intros q x c Hx Hcl. apply Hheap in Hx as [[-> ->]|[Hne Hx]].
    { cbn in Hcl. congruence. }
    destruct (I4 q x c Hx Hcl) as (Hlt & Hst & Hpc).
    by rewrite list_lookup_insert_ne.
  - intros q q' x x' c Hx Hx' Hcl Hcl'.
    apply Hheap in Hx as [[-> ->]|[Hne Hx]]; [cbn in Hcl; congruence|].
    apply Hheap in Hx' as [[-> ->]|[Hne' Hx']]; [cbn in Hcl'; congruence|].
    by eapply I5.
  - exact I6.
  - intros c. by rewrite Hf.
Qed.

Lemma set_info_key_same intf : set_info_key intf (key (info intf)) = intf.
Proof. by destruct intf as [? ? ? [] ? ? ?]. Qed.

(** A handler that registers its link (lines 221-240). *)
Lemma consistent_register s p intf k w :
  let intf' := set_closed (set_info_key intf k)
                          (Some (length (chans (mem s)))) in
  procs s !! p = Some Created → heap (mem s) !! p = Some intf →
  links (mem s) !! info intf' = None →
  heap w = <[p:=intf']> (heap (mem s)) →
  links w = <[info intf':=p]> (links (mem s)) →
  stopped w = stopped (mem s) →
  chans w = chans (mem s) ++ [false] →
  (∀ c, fired c (events w) = fired c (events (mem s))) →
  consistent s → consistent (mkSystem w (<[p:=Tunnel]> (procs s))).
Proof.
  intros intf' Hp Hi Hfree Hh Hl Hs Hc Hf [I1 I2 I3 I4 I5 I6 I7].
  assert (Hplt : (p < length (heap (mem s)))%nat) by by eapply lookup_lt_Some.
  assert (Hheap : ∀ q x, <[p:=intf']> (heap (mem s)) !! q = Some x →
            (q = p ∧ x = intf') ∨ (q ≠ p ∧ heap (mem s) !! q = Some x)).
  { intros q x Hq. apply list_lookup_insert_Some in Hq as [(-> & <- & _)|[Hne Hq]];
      [by left|right; split; [congruence|done]]. }
  split; unfold live in *; cbn; rewrite ?Hh, ?Hl, ?Hs, ?Hc.
  - by rewrite !length_insert.
  - intros i q Hq. apply lookup_insert_Some in Hq as [[<- <-]|[Hne Hq]].
    + rewrite !list_lookup_insert_eq by lia. eauto.
    + destruct (I2 i q Hq) as (Hlive & x & Hx & Hinfo).
      assert (q ≠ p) by congruence.
      rewrite !list_lookup_insert_ne by done. eauto.
  - intros q Hq. apply list_lookup_insert_Some in Hq as [(<- & _ & _)|[Hne Hq]].
    + exists intf', (length (chans (mem s))).
      rewrite list_lookup_insert_eq by done. rewrite lookup_insert_eq.
      repeat split; try done.
      rewrite lookup_app_r by done. by rewrite Nat.sub_diag.
    + destruct (I3 q Hq) as (x & c & Hx & Hk & Hcl & Hch).
      exists x, c. rewrite list_lookup_insert_ne by done.
      rewrite lookup_insert_ne by congruence.
      repeat split; try done.
      rewrite lookup_app_l; [done|]. by eapply lookup_lt_Some.
  - intros q x c Hx Hcl. rewrite length_app. cbn.
    apply Hheap in Hx as [[-> ->]|[Hne Hx]].
    + cbn in Hcl. injection Hcl as <-.
      rewrite list_lookup_insert_eq by lia.
      repeat split; [lia| |done].
      intros Hst. apply I6 in Hst. lia.
    + destruct (I4 q x c Hx Hcl) as (Hlt & Hst & Hpc).
      rewrite list_lookup_insert_ne by done. repeat split; [lia|done..].
  - intros q q' x x' c Hx Hx' Hcl Hcl'.
    apply Hheap in Hx as [[-> ->]|[Hne Hx]];
      apply Hheap in Hx' as [[-> ->]|[Hne' Hx']]; try done.
    + cbn in Hcl. injection Hcl as <-.
      destruct (I4 q' x' _ Hx' Hcl') as (Hlt & _). lia.
    + cbn in Hcl'. injection Hcl' as <-.
      destruct (I4 q x _ Hx Hcl) as (Hlt & _). lia.
    + by eapply I5.
  - intros c Hst. rewrite length_app. apply I6 in Hst. lia.
  - intros c. rewrite Hf, I7.
    destruct (decide (c < length (chans (mem s)))%nat) as [Hlt|Hge].
    + by rewrite lookup_app_l.
    + rewrite lookup_app_r by lia. rewrite (proj2 (lookup_ge_None _ _)) by lia.
      by destruct (c - length (chans (mem s)))%nat as [|[|n]].
Qed.

(** A handler that comes back from the tunnel engine (lines 232-237). *)
Lemma consistent_leave s p intf c w :
  live s p → heap (mem s) !! p = Some intf → closed intf = Some c →
  heap w = heap (mem s) →
  links w = delete (info intf) (links (mem s)) →
  stopped w = stopped (mem s) →
  chans w = <[c:=true]> (chans (mem s)) →
  (∀ d, fired d (events w)
        = ((if decide (d = c) then 1 else 0) + fired d (events (mem s)))%nat) →
  consistent s → consistent (mkSystem w (<[p:=Exited]> (procs s))).
Proof.
  intros Hp Hi Hcl Hh Hl Hs Hc Hf [I1 I2 I3 I4 I5 I6 I7].
  destruct (I3 p Hp) as (x & c' & Hx & Hk & Hcl' & Hch).
  assert (x = intf) as -> by congruence.
  assert (c' = c) as -> by congruence.
  split; unfold live in *; cbn; rewrite ?Hh, ?Hl, ?Hs, ?Hc.
  - by rewrite !length_insert.
  - intros i q Hq. apply lookup_delete_Some in Hq as [Hne Hq].
    destruct (I2 i q Hq) as (Hlive & y & Hy & Hinfo).
    assert (q ≠ p). { intros ->. congruence. }
    rewrite list_lookup_insert_ne by done. eauto.
  - intros q Hq. apply list_lookup_insert_Some in Hq as [(_ & [=] & _)|[Hne Hq]].
    destruct (I3 q Hq) as (y & d & Hy & Hky & Hcly & Hchy).
    exists y, d. repeat split; try done.
    + rewrite lookup_delete_ne; [done|]. intros E. rewrite <- E in Hky. congruence.
    + rewrite list_lookup_insert_ne; [done|]. intros ->.
      apply Hne. by eapply I5.
  - intros q y d Hy Hcly. rewrite length_insert.
    destruct (I4 q y d Hy Hcly) as (Hlt & Hst & Hpc).
    repeat split; try done.
    intros Hq. apply list_lookup_insert_Some in Hq as [(_ & [=] & _)|[Hne Hq]].
    done.
  - exact I5.
  - intros d Hd. rewrite length_insert. by apply I6.
  - intros d. rewrite Hf, I7. destruct (decide (d = c)) as [->|Hne].
    + rewrite list_lookup_insert_eq by by eapply lookup_lt_Some.
      by rewrite Hch.
    + by rewrite list_lookup_insert_ne.
Qed.

(** [stop] closes the stop channel, which belongs to no link. *)
Lemma consistent_stop s c w :
  stopped (mem s) = Some c → chans (mem s) !! c = Some false →
  heap w = heap (mem s) → links w = links (mem s) →
  stopped w = stopped (mem s) →
  chans w = <[c:=true]> (chans (mem s)) →
  (∀ d, fired d (events w)
        = ((if decide (d = c) then 1 else 0) + fired d (events (mem s)))%nat) →
  consistent s → consistent (mkSystem w (procs s)).
Proof.
  intros Hst Hch Hh Hl Hs Hc Hf [I1 I2 I3 I4 I5 I6 I7].
  split; unfold live in *; cbn; rewrite ?Hh, ?Hl, ?Hs, ?Hc; try done.
  - intros q Hq. destruct (I3 q Hq) as (y & d & Hy & Hky & Hcly & Hchy).
    exists y, d. repeat split; try done.
    rewrite list_lookup_insert_ne; [done|]. intros ->.
    destruct (I4 q y d Hy Hcly) as (_ & Hne & _). congruence.
  - intros q y d Hy Hcly. rewrite length_insert. by eapply I4.
  - intros d Hd. rewrite length_insert. by apply I6.
  - intros d. rewrite Hf, I7. destruct (decide (d = c)) as [->|Hne].
    + rewrite list_lookup_insert_eq by by eapply lookup_lt_Some.
      by rewrite Hch.
    + by rewrite list_lookup_insert_ne.
Qed.

(** ** The four ways through [handler_enter] *)

Section Paths.
Variable V : version_codec.
Variable public : list byte.

Lemma handler_enter_fatal w p io intf e :
  heap w !! p = Some intf →
  handler_validate V public intf io = Fatal e →
  handler_enter V public w p io
  = (emit (EvConnClose (conn intf)) w, Exit (Returns (None, Some e))).
Proof. intros Hi Hv. unfold handler_enter. by rewrite Hi, Hv. Qed.

Lemma handler_enter_forbidden w p io intf :
  heap w !! p = Some intf →
  handler_validate V public intf io = Forbidden →
  handler_enter V public w p io
  = (emit (EvConnClose (conn intf)) (link_close intf w),
     Exit (Returns (None, None))).
Proof. intros Hi Hv. unfold handler_enter. by rewrite Hi, Hv. Qed.

Lemma handler_enter_duplicate w p io intf meta m old :
  heap w !! p = Some intf →
  handler_validate V public intf io = Accepted meta m →
  links w !! info (keyed intf meta) = Some old →
  handler_enter V public w p io
  = (emit (EvConnClose (conn intf)) (store p (keyed intf meta) w),
     Exit (match <[p:=keyed intf meta]> (heap w) !! old with
           | Some oldIntf => Returns (closed oldIntf, None)
           | None => Panics
           end)).
Proof.
  intros Hi Hv Hold. unfold handler_enter. rewrite Hi, Hv. cbv zeta.
  unfold keyed in *. cbn [store links heap]. rewrite Hold.
  by destruct (<[p:=_]> (heap w) !! old).
Qed.

Lemma handler_enter_fresh w p io intf meta m :
  heap w !! p = Some intf →
  handler_validate V public intf io = Accepted meta m →
  links w !! info (keyed intf meta) = None →
  handler_enter V public w p io
  = (registered w p intf meta m, InTunnel (key (info (keyed intf meta))) m).
Proof.
  intros Hi Hv Hnew. unfold handler_enter. rewrite Hi, Hv. cbv zeta.
  unfold keyed in *. cbn [store links heap]. rewrite Hnew.
  unfold registered, keyed, emit, set_links, store. cbn.
  by rewrite list_insert_insert_eq.
Qed.

Lemma handler_enter_consistent s p io w' pr :
  consistent s → procs s !! p = Some Created →
  handler_enter V public (mem s) p io = (w', pr) →
  consistent (mkSystem w' (<[p:=pc_after pr]> (procs s))).
Proof.
  intros Hs Hp.
  destruct (heap (mem s) !! p) as [intf|] eqn:Hi.
  2:{ apply lookup_lt_Some in Hp. apply lookup_ge_None in Hi.
      rewrite (con_procs _ Hs) in Hp. lia. }
  assert (Hsame : heap (mem s)
                  = <[p:=set_info_key intf (key (info intf))]> (heap (mem s))).
  { rewrite set_info_key_same. symmetry. by apply list_insert_id. }
  destruct (handler_validate V public intf io) as [e| |meta m] eqn:Hv.
  - rewrite (handler_enter_fatal _ _ _ _ _ Hi Hv).
    intros [= <- <-]. by eapply consistent_exit.
  - rewrite (handler_enter_forbidden _ _ _ _ Hi Hv).
    intros [= <- <-]. by eapply consistent_exit.
  - destruct (links (mem s) !! info (keyed intf meta)) as [old|] eqn:Hold.
    + rewrite (handler_enter_duplicate _ _ _ _ _ _ _ Hi Hv Hold).
      intros [= <- <-].
      by apply (consistent_exit s p intf
                  (copy (key (info intf)) (version.key meta))).
    + rewrite (handler_enter_fresh _ _ _ _ _ _ Hi Hv Hold).
      intros [= <- <-].
      by apply (consistent_register s p intf
                  (copy (key (info intf)) (version.key meta))).
Qed.

Lemma handler_leave_consistent s p err w' r :
  consistent s → live s p → handler_leave (mem s) p err = (w', r) →
  consistent (mkSystem w' (<[p:=Exited]> (procs s))) ∧
  r = Returns (None, err).
Proof.
  intros Hs Hp. unfold handler_leave.
  destruct (con_live _ Hs p Hp) as (intf & c & Hi & Hk & Hcl & Hch).
  rewrite Hi, Hcl. cbn. rewrite Hch.
  intros [= <- <-]. split; [|done].
  eapply consistent_leave; try done.
  intros d. unfold emit. cbn [events].
  rewrite fired_other by done. rewrite fired_close.
  by rewrite fired_other by done.
Qed.

Lemma step_consistent s s' :
  consistent s → step V public s s' → consistent s'.
Proof.
  intros Hs Hstep. destruct Hstep.
  - by apply consistent_spawn.
  - by eapply handler_enter_consistent.
  - by eapply handler_leave_consistent.
  - apply consistent_events; try done;
      unfold links_call; repeat case_match; try done;
      intros c; unfold emit; cbn [events]; by rewrite fired_other by done.
  - unfold links_stop, close_chan in H.
    destruct (stopped (mem s)) as [c|] eqn:Hc; [|done].
    destruct (chans (mem s) !! c) as [[]|] eqn:Hch; try done.
    injection H as <- _. eapply consistent_stop; try done.
    intros d. unfold emit. cbn [events].
    rewrite fired_other by done. by rewrite fired_close.
Qed.

Lemma reachable_consistent s : reachable V public s → consistent s.
Proof.
  induction 1 as [|s s' _ IH Hstep].
  - exact consistent_init.
  - by eapply step_consistent.
Qed.
End Paths.

(** ** The handshake *)

Lemma length_copy dst src : length (copy dst src) = length dst.
Proof.
  unfold copy. rewrite length_app, length_take, length_drop. lia.
Qed.

Lemma scan_allowed_spec h allowed b :
  scan_allowed h allowed b = true ↔ h ∈ allowed ∨ b = true.
Proof.
  induction allowed as [|k rest IH]; cbn.
  - split; [by right|]. intros [H|H]; [|done]. by apply elem_of_nil in H.
  - destruct (String.eqb k h) eqn:E.
    + apply String.eqb_eq in E as ->. split; [|done]. intros _. left. by left.
    + apply String.eqb_neq in E. rewrite IH, elem_of_cons.
      split; [intros [H|H]; auto|].
      intros [[H|H]|H]; auto; by subst.
Qed.

Section Handshake.
Variable V : version_codec.
Variable public : list byte.

Lemma handler_exit w p io w' r :
  handler_enter V public w p io = (w', Exit r) →
  handler V public w p io = (w', r).
Proof. intros H. unfold handler. by rewrite H. Qed.

Lemma exchange_fails_inl intf io e :
  exchange_fails V public intf io e →
  handler_exchange V public intf io = inl e.
Proof.
  unfold handler_exchange.
  destruct 1 as [H|n H Hn|n e H|Hs H|n data Hs H Hn|n e data Hs H];
    try (red in Hs; cbv zeta in Hs; rewrite Hs); rewrite H; cbv zeta.
  - done.
  - by rewrite bool_decide_eq_true_2.
  - done.
  - by rewrite bool_decide_eq_false_2 by (intros Hne; by apply Hne).
  - rewrite bool_decide_eq_false_2 by (intros Hne; by apply Hne).
    rewrite length_copy. by rewrite bool_decide_eq_true_2.
  - by rewrite bool_decide_eq_false_2 by (intros Hne; by apply Hne).
Qed.

(** C8.  The send and the receive of the metadata each run under their own
    [FuncTimeout] of 30 seconds ([exchange_fails] names the deadline of
    each half).  When either deadline expires, or either half comes back
    with an error or with another count than the length of the metadata,
    [handler] closes the connection and returns that failure's error and no
    channel; the registry, the links and the channels are as before, so no
    link is registered.  The two timeouts and the two incomplete transfers
    have four different errors. *)
Theorem C8_exchange_failure_is_fatal w p intf io e :
  heap w !! p = Some intf →
  exchange_fails V public intf io e →
  handler V public w p io
  = (emit (EvConnClose (conn intf)) w, Returns (None, Some e)) ∧
  links (handler V public w p io).1 = links w ∧
  inserts (events (handler V public w p io).1) = inserts (events w) ∧
  NoDup ["timeout on metadata send"; "incomplete metadata send";
         "timeout on metadata recv"; "incomplete metadata recv"]%string.
Proof.
  intros Hi Hf.
  assert (Hv : handler_validate V public intf io = Fatal e).
  { unfold handler_validate. by rewrite (exchange_fails_inl _ _ _ Hf). }
  assert (Hh : handler V public w p io
               = (emit (EvConnClose (conn intf)) w, Returns (None, Some e))).
  { apply handler_exit. by apply handler_enter_fatal. }
  rewrite Hh. repeat split.
  apply (bool_decide_unpack _). vm_compute. exact I.
Qed.
End Handshake.

Lemma C8_witness :
  handler sample_codec own_key (mem sys_spawned) 0 send_times_out
  = (emit (EvConnClose 7) (mem sys_spawned),
     Returns (None, Some "timeout on metadata send"%string)) ∧
  handler sample_codec own_key (mem sys_spawned) 0 recv_is_short
  = (emit (EvConnClose 7) (mem sys_spawned),
     Returns (None, Some "incomplete metadata recv"%string)).
Proof.
  split.
  - apply (C8_exchange_failure_is_fatal sample_codec own_key
             (mem sys_spawned) 0 (sample_out 7 3) send_times_out).
    + reflexivity.
    + apply send_timeout. reflexivity.
  - apply (C8_exchange_failure_is_fatal sample_codec own_key
             (mem sys_spawned) 0 (sample_out 7 3) recv_is_short).
    + reflexivity.
    + apply (recv_short _ _ _ _ (Z.of_nat 35 - 1) []).
      * reflexivity.
      * reflexivity.
      * vm_compute. discriminate.
Defined.

Section Checks.
Variable V : version_codec.
Variable public : list byte.

(** [handler_validate] once the exchange has delivered [meta]. *)
Lemma validate_after_exchange intf io meta :
  handler_exchange V public intf io = inr meta →
  handler_validate V public intf io
  = if negb (check V meta) then Fatal "remote node is incompatible version"
    else if match pinnedEd25519Keys (options intf) with
            | Some pinned => bool_decide (keyOf (version.key meta) ∉ pinned)
            | None => false
            end
    then Fatal "failed to connect: host sent ed25519 key that does not match pinned keys"
    else if incoming intf && negb (force intf) &&
            negb (scan_allowed (EncodeToString (version.key meta))
                    (AllowedPublicKeys io)
                    (bool_decide (length (AllowedPublicKeys io) = 0%nat)))
    then Forbidden
    else Accepted meta
           (if uint64 (metric (options intf)) <? uint64 (version.metric meta)
            then uint64 (version.metric meta)
            else uint64 (metric (options intf))).
Proof. intros H. unfold handler_validate. by rewrite H. Qed.

Lemma validate_accepted_inv intf io meta m :
  handler_validate V public intf io = Accepted meta m →
  handler_exchange V public intf io = inr meta ∧
  m = (if uint64 (metric (options intf)) <? uint64 (version.metric meta)
       then uint64 (version.metric meta)
       else uint64 (metric (options intf))).
Proof.
  destruct (handler_exchange V public intf io) as [e|meta'] eqn:Hx.
  - unfold handler_validate. by rewrite Hx.
  - rewrite (validate_after_exchange _ _ _ Hx).
    destruct (negb (check V meta')); [done|].
    destruct (match pinnedEd25519Keys (options intf) with
              | Some _ => _ | None => _ end); [done|].
    destruct (incoming intf && negb (force intf) && negb _); [done|].
    by intros [= <- <-].
Qed.

Lemma handler_enter_tunnel_inv w p io intf w' k m :
  heap w !! p = Some intf →
  handler_enter V public w p io = (w', InTunnel k m) →
  ∃ meta, handler_validate V public intf io = Accepted meta m ∧
          links w !! info (keyed intf meta) = None ∧
          w' = registered w p intf meta m ∧
          k = key (info (keyed intf meta)).
Proof.
  intros Hi.
  destruct (handler_validate V public intf io) as [e| |meta m'] eqn:Hv.
  - by rewrite (handler_enter_fatal _ _ _ _ _ _ _ Hi Hv).
  - by rewrite (handler_enter_forbidden _ _ _ _ _ _ Hi Hv).
  - destruct (links w !! info (keyed intf meta)) as [old|] eqn:Hold.
    + by rewrite (handler_enter_duplicate _ _ _ _ _ _ _ _ _ Hi Hv Hold).
    + rewrite (handler_enter_fresh _ _ _ _ _ _ _ _ Hi Hv Hold).
      intros [= <- <- <-]. by exists meta.
Qed.

(** C3.  For every pair of uint8 values [a] (the metric of the link's
    options) and [b] (the metric in the metadata the remote node sent),
    when the handshake succeeds, the metric handed to the tunnel engine
    with the connection is the maximum of [a] and [b]. *)
Theorem C3_effective_metric_is_max w p intf io meta a b w' k m :
  heap w !! p = Some intf →
  0 ≤ a < 256 → 0 ≤ b < 256 →
  metric (options intf) = a →
  handler_exchange V public intf io = inr meta →
  version.metric meta = b →
  handler_enter V public w p io = (w', InTunnel k m) →
  m = Z.max a b ∧
  events w' = EvHandleConn k (conn intf) m
                :: EvInsert (info (keyed intf meta)) p :: events w.
Proof.
  intros Hi Ha Hb <- Hx <- He.
  destruct (handler_enter_tunnel_inv _ _ _ _ _ _ _ Hi He)
    as (meta' & Hv & _ & -> & ->).
  destruct (validate_accepted_inv _ _ _ _ Hv) as [Hx' ->].
  assert (meta' = meta) as -> by congruence.
  split; [|done].
  unfold uint64. rewrite !Z.mod_small by lia.
  destruct (Z.ltb_spec (metric (options intf)) (version.metric meta)); lia.
Qed.

(** C4, as the code has it.  An incoming connection that is not forced,
    that has come through the metadata exchange, the version check and
    the pinned keys, and
    whose remote key is not in the allow-list, the allow-list not being
    empty: [handler] closes the connection (by [close()], and again by the
    deferred [Close()]), returns a nil channel and a nil error, and leaves
    the registry and the links as they were; nothing is handed to the
    tunnel engine. *)
Theorem C4_allow_list_rejection_is_silent w p intf io meta :
  heap w !! p = Some intf →
  incoming intf = true → force intf = false →
  AllowedPublicKeys io ≠ [] →
  handler_exchange V public intf io = inr meta →
  check V meta = true → pinned_ok (options intf) meta →
  EncodeToString (version.key meta) ∉ AllowedPublicKeys io →
  handler V public w p io
  = (emit (EvConnClose (conn intf)) (emit (EvConnClose (conn intf)) w),
     Returns (None, None)) ∧
  links (handler V public w p io).1 = links w ∧
  heap (handler V public w p io).1 = heap w ∧
  (0 < closes (conn intf) (events (handler V public w p io).1))%nat ∧
  inserts (events (handler V public w p io).1) = inserts (events w) ∧
  handoffs (events (handler V public w p io).1) = handoffs (events w).
Proof.
  intros Hi Hinc Hforce Hne Hx Hchk Hpin Hout.
  assert (Hp : match pinnedEd25519Keys (options intf) with
               | Some pinned => bool_decide (keyOf (version.key meta) ∉ pinned)
               | None => false
               end = false).
  { destruct (pinnedEd25519Keys (options intf)) as [pinned|] eqn:E; [|done].
    apply bool_decide_eq_false_2. intros Hn. by apply Hn, Hpin. }
  assert (Hs : scan_allowed (EncodeToString (version.key meta))
                 (AllowedPublicKeys io)
                 (bool_decide (length (AllowedPublicKeys io) = 0%nat)) = false).
  { apply not_true_is_false. rewrite scan_allowed_spec.
    intros [H|H]; [done|]. apply bool_decide_eq_true_1 in H.
    by destruct (AllowedPublicKeys io). }
  assert (Hv : handler_validate V public intf io = Forbidden).
  { by rewrite (validate_after_exchange _ _ _ Hx), Hchk, Hp, Hs, Hinc, Hforce. }
  assert (Hh : handler V public w p io
               = (emit (EvConnClose (conn intf))
                       (emit (EvConnClose (conn intf)) w),
                  Returns (None, None))).
  { apply handler_exit. by apply handler_enter_forbidden. }
  rewrite Hh. repeat split. cbn. unfold closes. cbn.
  rewrite !decide_True by done. cbn. lia.
Qed.

(** C5.  A connection, incoming or outgoing ([intf] is any link), whose
    options carry a set of pinned keys that does not hold the key the
    remote node sent (cut or padded to the size of a key, as line 199
    does): [handler] returns an error and no channel, closes the
    connection and leaves the registry as it was.  The error is the one of
    the pinned keys, unless the version check has failed before. *)
Theorem C5_pinned_mismatch_is_reported w p intf io meta pinned :
  heap w !! p = Some intf →
  handler_exchange V public intf io = inr meta →
  pinnedEd25519Keys (options intf) = Some pinned →
  keyOf (version.key meta) ∉ pinned →
  handler V public w p io
  = (emit (EvConnClose (conn intf)) w,
     Returns (None,
       Some (if check V meta
             then "failed to connect: host sent ed25519 key that does not match pinned keys"
             else "remote node is incompatible version")%string)) ∧
  links (handler V public w p io).1 = links w ∧
  inserts (events (handler V public w p io).1) = inserts (events w).
Proof.
  intros Hi Hx Hpin Hout.
  set (e := (if check V meta then _ else _)%string).
  assert (Hv : handler_validate V public intf io = Fatal e).
  { rewrite (validate_after_exchange _ _ _ Hx), Hpin. subst e.
    destruct (check V meta); [|done]. cbn.
    by rewrite bool_decide_eq_true_2. }
  assert (Hh : handler V public w p io
               = (emit (EvConnClose (conn intf)) w, Returns (None, Some e))).
  { apply handler_exit. by apply handler_enter_fatal. }
  by rewrite Hh.
Qed.


End Checks.

(** The order of the checks, on samples: the version check comes before
    the pinned keys and the allow-list, the pinned keys before the
    allow-list. *)
Example version_check_first :
  handler_validate sample_codec own_key (sample_in 1)
                   (answering (hello_v1 key_a 9) allow_other None)
  = Fatal "remote node is incompatible version".
Proof. vm_compute. reflexivity. Qed.

Example pinned_keys_before_allow_list :
  handler_validate sample_codec own_key (sample_pinned 4 true {[ key_b ]})
                   (answering (hello key_a 9) allow_other None)
  = Fatal "failed to connect: host sent ed25519 key that does not match pinned keys".
Proof. vm_compute. reflexivity. Qed.

Example forced_passes_allow_list :
  handler_validate sample_codec own_key
    (links_create 1 "in" "tcp" "10.0.0.1:1000" "10.0.0.3:3000" true true
                  (mkLinkOptions None 0)).1
    (answering (hello key_a 9) allow_other None)
  = Accepted (remote_meta key_a 9) 9.
Proof. vm_compute. reflexivity. Qed.

Example empty_allow_list_admits :
  handler_validate sample_codec own_key (sample_in 1)
                   (answering (hello key_a 9) [] None)
  = Accepted (remote_meta key_a 9) 9.
Proof. vm_compute. reflexivity. Qed.

(** ** [call] and [stop] *)

Lemma call_scheme_cases (s : string) :
  s ∈ call_schemes ↔ s = "tcp"%string ∨ s = "socks"%string ∨ s = "tls"%string.
Proof.
  unfold call_schemes. rewrite !elem_of_cons, elem_of_nil. tauto.
Qed.

(** C9.  [call] returns an error exactly when the scheme of the URL is
    none of tcp, socks and tls; the error is "unknown call scheme: "
    followed by the scheme, and nothing else happens.  For the three
    schemes it returns nil after one [tcp.call], which answers nothing
    that [call] could look at: the result cannot depend on how the dial
    ends. *)
Theorem C9_call_fails_on_unknown_scheme_only u sintf w :
  ((links_call u sintf w).2 ≠ None ↔ Scheme u ∉ call_schemes) ∧
  ((Scheme u ∈ call_schemes ∧ (links_call u sintf w).2 = None ∧
    (∃ saddr o,
       (links_call u sintf w).1 = emit (EvTcpCall saddr o sintf) w))
   ∨
   ((Scheme u ∉ call_schemes) ∧
    links_call u sintf w
    = (w, Some ("unknown call scheme: " +:+ Scheme u)))).
Proof.
  unfold links_call.
  destruct (String.eqb (Scheme u) "tcp") eqn:E1.
  { apply String.eqb_eq in E1.
    assert (Scheme u ∈ call_schemes) by (apply call_scheme_cases; auto).
    cbn. split; [split; done|]. left. eauto. }
  destruct (String.eqb (Scheme u) "socks") eqn:E2.
  { apply String.eqb_eq in E2.
    assert (Scheme u ∈ call_schemes) by (apply call_scheme_cases; auto).
    cbn. split; [split; done|]. left. eauto. }
  destruct (String.eqb (Scheme u) "tls") eqn:E3.
  { apply String.eqb_eq in E3.
    assert (Scheme u ∈ call_schemes) by (apply call_scheme_cases; auto).
    cbn. split; [split; done|]. left. eauto. }
  apply String.eqb_neq in E1, E2, E3.
  assert (Scheme u ∉ call_schemes).
  { rewrite call_scheme_cases. intros [?|[?|?]]; done. }
  cbn. split; [split; done|]. by right.
Qed.

Example call_unknown :
  links_call url_quic "" world0
  = (world0, Some "unknown call scheme: quic"%string).
Proof. reflexivity. Qed.

Example call_socks :
  links_call url_socks "eth0" world0
  = (emit (EvTcpCall "10.0.0.2:2000"
             (mkTcpOptions (mkLinkOptions None 0) None "proxy:1080"
                           (Some ("u", "pw")%string))
             "eth0") world0,
     None).
Proof. reflexivity. Qed.

(** C7, as the code has it.  On a registry whose stop channel is open,
    [stop] closes the stop channel, then stops the adapter (once) and
    returns the adapter's error.  It cannot be called again: a second call
    panics on the closed channel and does not reach the adapter. *)
Theorem C7_stop_closes_once w c e e' :
  stopped w = Some c → chans w !! c = Some false →
  (links_stop e w).2 = Returns e ∧
  chans (links_stop e w).1 !! c = Some true ∧
  events (links_stop e w).1 = EvTcpStop :: EvChanClose c :: events w ∧
  links (links_stop e w).1 = links w ∧
  links_stop e' (links_stop e w).1 = ((links_stop e w).1, Panics).
Proof.
  intros Hs Hc. unfold links_stop, close_chan. rewrite Hs, Hc. cbn.
  rewrite list_lookup_insert_eq by by eapply lookup_lt_Some.
  done.
Qed.

Lemma C7_witness :
  (links_stop (Some "listener"%string) (mem system0)).2
  = Returns (Some "listener"%string) ∧
  links_stop None (links_stop (Some "listener"%string) (mem system0)).1
  = ((links_stop (Some "listener"%string) (mem system0)).1, Panics).
Proof.
  destruct (C7_stop_closes_once (mem system0) 0 (Some "listener"%string) None)
    as (H1 & _ & _ & _ & H2); [reflexivity|reflexivity|].
  split; [exact H1|exact H2].
Defined.

(** C7 as the specification states it fails: the second of two calls of [stop] on a
    registry that [init] has set up panics. *)
Lemma C7_counterexample :
  (links_stop None (mem system0)).2 = Returns None ∧
  (links_stop None (links_stop None (mem system0)).1).2 = Panics.
Proof. split; reflexivity. Qed.

(** ** The registry *)

Section Registry.
Variable V : version_codec.
Variable public : list byte.

(** The run of a handler that registers its link, with nothing else
    touching the state while the tunnel engine holds the connection. *)
Lemma handler_fresh_run w p io intf meta m :
  heap w !! p = Some intf →
  handler_validate V public intf io = Accepted meta m →
  links w !! info (keyed intf meta) = None →
  handler V public w p io
  = (departed w p intf meta m,
     Returns (None, HandleConn io (key (info (keyed intf meta)))
                               (conn intf) m)).
Proof.
  intros Hi Hv Hnew. unfold handler.
  rewrite (handler_enter_fresh _ _ _ _ _ _ _ _ Hi Hv Hnew).
  assert (Hp : (p < length (heap w))%nat) by by eapply lookup_lt_Some.
  unfold registered at 1. cbn [heap].
  rewrite list_lookup_insert_eq by done.
  unfold handler_leave, registered. cbn [heap].
  rewrite list_lookup_insert_eq by done.
  unfold set_links, emit, close_chan. cbn.
  rewrite lookup_app_r by done. rewrite Nat.sub_diag. cbn.
  rewrite delete_insert_id by done. reflexivity.
Qed.

(** The run of a handler that finds an entry for its key. *)
Lemma handler_duplicate_run s p intf io meta m old :
  consistent s →
  procs s !! p = Some Created → heap (mem s) !! p = Some intf →
  handler_validate V public intf io = Accepted meta m →
  links (mem s) !! info (keyed intf meta) = Some old →
  ∃ oldIntf c,
    heap (mem s) !! old = Some oldIntf ∧ live s old ∧ old ≠ p ∧
    closed oldIntf = Some c ∧ chans (mem s) !! c = Some false ∧
    handler V public (mem s) p io
    = (emit (EvConnClose (conn intf)) (store p (keyed intf meta) (mem s)),
       Returns (Some c, None)).
Proof.
  intros Hs Hp Hi Hv Hold.
  destruct (con_entry _ Hs _ _ Hold) as (Hlive & oldIntf & Ho & Hinfo).
  destruct (con_live _ Hs old Hlive) as (x & c & Hx & Hk & Hcl & Hch).
  assert (x = oldIntf) as -> by congruence.
  assert (Hne : old ≠ p). { unfold live in Hlive. congruence. }
  exists oldIntf, c. repeat split; try done.
  apply handler_exit.
  rewrite (handler_enter_duplicate _ _ _ _ _ _ _ _ _ Hi Hv Hold).
  rewrite list_lookup_insert_ne by done. by rewrite Ho, Hcl.
Qed.

(** C1.  In every reachable state of the registry: two live links with the
    same [linkInfo] are one link; every entry of the registry maps its key
    to a live link that carries this key, and every live link is the entry
    of its key.  When a handler that has passed all checks finds an entry
    for its key, the entry is a live link with an open closure channel,
    and [handler] returns this channel and a nil error; the connection is
    closed, the registry is what it was (nothing inserted, the entry still
    the old link) and nothing is handed to the tunnel engine. *)
Theorem C1_one_live_link_per_key s :
  reachable V public s →
  (∀ p1 p2 l1 l2,
     live s p1 → live s p2 →
     heap (mem s) !! p1 = Some l1 → heap (mem s) !! p2 = Some l2 →
     info l1 = info l2 → p1 = p2) ∧
  (∀ k p, links (mem s) !! k = Some p →
     live s p ∧ ∃ l, heap (mem s) !! p = Some l ∧ info l = k) ∧
  (∀ p, live s p →
     ∃ l, heap (mem s) !! p = Some l ∧ links (mem s) !! info l = Some p) ∧
  (∀ p intf io meta m old,
     procs s !! p = Some Created → heap (mem s) !! p = Some intf →
     handler_validate V public intf io = Accepted meta m →
     links (mem s) !! info (keyed intf meta) = Some old →
     ∃ oldIntf c,
       heap (mem s) !! old = Some oldIntf ∧ live s old ∧ old ≠ p ∧
       closed oldIntf = Some c ∧ chans (mem s) !! c = Some false ∧
       handler V public (mem s) p io
       = (emit (EvConnClose (conn intf)) (store p (keyed intf meta) (mem s)),
          Returns (Some c, None)) ∧
       links (handler V public (mem s) p io).1 = links (mem s) ∧
       inserts (events (handler V public (mem s) p io).1)
       = inserts (events (mem s)) ∧
       handoffs (events (handler V public (mem s) p io).1)
       = handoffs (events (mem s))).
Proof.
  intros Hr. pose proof (reachable_consistent _ _ _ Hr) as Hs.
  repeat split.
  - intros p1 p2 l1 l2 H1 H2 Hl1 Hl2 Hinfo.
    destruct (con_live _ Hs p1 H1) as (x1 & c1 & Hx1 & Hk1 & _).
    destruct (con_live _ Hs p2 H2) as (x2 & c2 & Hx2 & Hk2 & _).
    congruence.
  - by destruct (con_entry _ Hs k p H).
  - by destruct (con_entry _ Hs k p H).
  - intros p Hp. destruct (con_live _ Hs p Hp) as (l & c & Hl & Hk & _). eauto.
  - intros p intf io meta m old Hp Hi Hv Hold.
    destruct (handler_duplicate_run s p intf io meta m old Hs Hp Hi Hv Hold)
      as (oldIntf & c & Ho & Hlive & Hne & Hcl & Hch & Hh).
    exists oldIntf, c. rewrite Hh. repeat split; try done.
Qed.

(** C2.  Deregistration (the deferred function of lines 232-237) in a
    reachable state.  The entry filed under the key of the link that
    deregisters holds this exact link, and this is the entry removed: an
    entry that holds another link is never removed, and no entry under
    another key changes.  A link whose entry had been taken over by a
    newer link would not be live, so no deregistration ever meets a newer
    entry.  The closure channel of the link was open and never closed
    before, and is closed once by this step, which does not panic.  In
    every reachable state each channel has been closed once if it is
    closed and never if it is open. *)
Theorem C2_deregistration_deletes_own_entry s p intf err :
  reachable V public s → live s p → heap (mem s) !! p = Some intf →
  links (mem s) !! info intf = Some p ∧
  links (handler_leave (mem s) p err).1 !! info intf = None ∧
  (∀ k q, links (mem s) !! k = Some q → q ≠ p →
          links (handler_leave (mem s) p err).1 !! k = Some q) ∧
  (∀ k, k ≠ info intf →
     links (handler_leave (mem s) p err).1 !! k = links (mem s) !! k) ∧
  (∃ c, closed intf = Some c ∧ chans (mem s) !! c = Some false ∧
        fired c (events (mem s)) = 0%nat ∧
        handler_leave (mem s) p err
        = (mkWorld (heap (mem s)) (delete (info intf) (links (mem s)))
                   (stopped (mem s)) (<[c:=true]> (chans (mem s)))
                   (EvConnClose (conn intf) :: EvChanClose c
                      :: EvDelete (info intf) :: events (mem s)),
           Returns (None, err)) ∧
        fired c (events (handler_leave (mem s) p err).1) = 1%nat) ∧
  (∀ c, fired c (events (mem s))
        = match chans (mem s) !! c with Some true => 1%nat | _ => 0%nat end).
Proof.
  intros Hr Hp Hi. pose proof (reachable_consistent _ _ _ Hr) as Hs.
  destruct (con_live _ Hs p Hp) as (x & c & Hx & Hk & Hcl & Hch).
  assert (x = intf) as -> by congruence.
  assert (Hf0 : fired c (events (mem s)) = 0%nat).
  { by rewrite (con_fired _ Hs), Hch. }
  assert (Hrun : handler_leave (mem s) p err
            = (mkWorld (heap (mem s)) (delete (info intf) (links (mem s)))
                       (stopped (mem s)) (<[c:=true]> (chans (mem s)))
                       (EvConnClose (conn intf) :: EvChanClose c
                          :: EvDelete (info intf) :: events (mem s)),
               Returns (None, err))).
  { unfold handler_leave. rewrite Hi, Hcl. cbn. by rewrite Hch. }
  assert (Hdel : links (handler_leave (mem s) p err).1
                 = delete (info intf) (links (mem s))).
  { by rewrite Hrun. }
  split; [done|].
  split; [by rewrite Hdel, lookup_delete_eq|].
  split.
  { intros k q Hq Hne. rewrite Hdel. rewrite lookup_delete_ne; [done|].
    intros <-. congruence. }
  split.
  { intros k Hne. rewrite Hdel. by rewrite lookup_delete_ne. }
  split; [|apply (con_fired _ Hs)].
  exists c. repeat split; try done. rewrite Hrun. cbn [fst events].
  rewrite fired_other by done. rewrite fired_close, decide_True by done.
  rewrite fired_other by done. by rewrite Hf0.
Qed.

(** The exits of [handler], counted.  Whatever way [handler] takes in a
    reachable state, it returns (no panic), it has called [Close()] on
    the connection, and the registry is what it was before: when it has
    inserted its link (once, on the way that hands the connection to the
    tunnel engine), it has deleted it (once); on every other way it has
    inserted and deleted nothing.  The deferred call of line 147 gives
    one [Close()] on every way; the refusal by the allow-list has called
    [close()] in line 217 before, which makes two there. *)
Lemma handler_exits_counted s p intf io w' r :
  reachable V public s →
  procs s !! p = Some Created → heap (mem s) !! p = Some intf →
  handler V public (mem s) p io = (w', r) →
  r ≠ Panics ∧
  links w' = links (mem s) ∧
  closes (conn intf) (events w')
  = (closes (conn intf) (events (mem s))
     + match handler_validate V public intf io with
       | Forbidden => 2
       | _ => 1
       end)%nat ∧
  ∃ n, (n ≤ 1)%nat ∧
       inserts (events w') = (inserts (events (mem s)) + n)%nat ∧
       deletes (events w') = (deletes (events (mem s)) + n)%nat ∧
       handoffs (events w') = (handoffs (events (mem s)) + n)%nat.
Proof.
  intros Hr Hp Hi. pose proof (reachable_consistent _ _ _ Hr) as Hs.
  assert (Hc : ∀ evs, closes (conn intf) (EvConnClose (conn intf) :: evs)
                      = S (closes (conn intf) evs)).
  { intros evs. unfold closes. rewrite count_event_cons.
    by rewrite decide_True. }
  destruct (handler_validate V public intf io) as [e| |meta m] eqn:Hv.
  - rewrite (handler_exit _ _ _ _ _ _ _
               (handler_enter_fatal _ _ _ _ _ _ _ Hi Hv)).
    intros [= <- <-]. repeat split; try done.
    + cbn [emit events]. rewrite Hc. lia.
    + exists 0%nat. cbn [emit events].
      rewrite inserts_cons, deletes_cons, handoffs_cons. cbn. lia.
  - rewrite (handler_exit _ _ _ _ _ _ _
               (handler_enter_forbidden _ _ _ _ _ _ Hi Hv)).
    intros [= <- <-]. repeat split; try done.
    + unfold link_close. cbn [emit events]. rewrite !Hc. lia.
    + exists 0%nat. unfold link_close. cbn [emit events].
      rewrite !inserts_cons, !deletes_cons, !handoffs_cons. cbn. lia.
  - destruct (links (mem s) !! info (keyed intf meta)) as [old|] eqn:Hold.
    + destruct (handler_duplicate_run s p intf io meta m old Hs Hp Hi Hv Hold)
        as (oldIntf & c & _ & _ & _ & _ & _ & Hh).
      rewrite Hh. intros [= <- <-]. repeat split; try done.
      * cbn [emit store events]. rewrite Hc. lia.
      * exists 0%nat. cbn [emit store events].
        rewrite inserts_cons, deletes_cons, handoffs_cons. cbn. lia.
    + rewrite (handler_fresh_run _ _ _ _ _ _ Hi Hv Hold).
      intros [= <- <-]. repeat split; try done.
      * unfold departed. cbn [events]. rewrite Hc.
        unfold closes. rewrite !count_event_cons.
        rewrite !decide_False by done. lia.
      * exists 1%nat. unfold departed. cbn [events].
        rewrite !inserts_cons, !deletes_cons, !handoffs_cons. cbn. lia.
Qed.
End Registry.

(** ** Sample runs *)

Section SampleSteps.
Variable V : version_codec.
Variable public : list byte.

Lemma step_enter_eq s p io s' :
  procs s !! p = Some Created →
  s' = mkSystem (handler_enter V public (mem s) p io).1
         (<[p:=pc_after (handler_enter V public (mem s) p io).2]> (procs s)) →
  step V public s s'.
Proof.
  intros Hp ->. eapply step_enter; [done|]. apply surjective_pairing.
Qed.
End SampleSteps.

Lemma reachable_one_link c n t lo re inc f o :
  reachable sample_codec own_key
    (mkSystem (one_link (links_create c n t lo re inc f o).1)
              (procs system0 ++ [Created])).
Proof.
  eapply reachable_step; [apply reachable_init|].
  exact (step_spawn _ _ system0 c n t lo re inc f o).
Qed.

Lemma reachable_spawned : reachable sample_codec own_key sys_spawned.
Proof. apply reachable_one_link. Qed.

Lemma reachable_incoming : reachable sample_codec own_key sys_incoming.
Proof. apply reachable_one_link. Qed.

Lemma reachable_registered : reachable sample_codec own_key sys_registered.
Proof.
  eapply reachable_step; [apply reachable_spawned|].
  apply step_enter_eq with (p := 0%nat) (io := answering (hello key_a 9) [] None);
    reflexivity.
Qed.

Lemma reachable_second : reachable sample_codec own_key sys_second.
Proof.
  eapply reachable_step; [apply reachable_registered|].
  exact (step_spawn _ _ sys_registered 8 "out" "tcp" "10.0.0.1:1000"
                    "10.0.0.2:2000" false false (mkLinkOptions None 5)).
Qed.

Lemma C1_witness :
  reachable sample_codec own_key sys_second ∧
  ∃ oldIntf c,
    heap (mem sys_second) !! 0%nat = Some oldIntf ∧ live sys_second 0 ∧
    0%nat ≠ 1%nat ∧ closed oldIntf = Some c ∧
    chans (mem sys_second) !! c = Some false ∧
    handler sample_codec own_key (mem sys_second) 1
            (answering (hello key_a 2) [] None)
    = (emit (EvConnClose 8)
            (store 1 (keyed (sample_out 8 5) (remote_meta key_a 2))
                   (mem sys_second)),
       Returns (Some c, None)) ∧
    links (handler sample_codec own_key (mem sys_second) 1
                   (answering (hello key_a 2) [] None)).1
    = links (mem sys_second) ∧
    inserts (events (handler sample_codec own_key (mem sys_second) 1
                             (answering (hello key_a 2) [] None)).1)
    = inserts (events (mem sys_second)) ∧
    handoffs (events (handler sample_codec own_key (mem sys_second) 1
                              (answering (hello key_a 2) [] None)).1)
    = handoffs (events (mem sys_second)).
Proof.
  split; [exact reachable_second|].
  destruct (C1_one_live_link_per_key sample_codec own_key sys_second
              reachable_second) as (_ & _ & _ & Hdup).
  apply (Hdup 1%nat (sample_out 8 5) (answering (hello key_a 2) [] None)
              (remote_meta key_a 2) 5 0%nat); vm_compute; reflexivity.
Defined.

Lemma C2_witness :
  let intf := set_closed (keyed (sample_out 7 3) (remote_meta key_a 9))
                         (Some 1%nat) in
  links (mem sys_registered) !! info intf = Some 0%nat ∧
  links (handler_leave (mem sys_registered) 0 None).1 !! info intf = None ∧
  ∃ c, closed intf = Some c ∧ chans (mem sys_registered) !! c = Some false ∧
       fired c (events (mem sys_registered)) = 0%nat ∧
       handler_leave (mem sys_registered) 0 None
       = (mkWorld (heap (mem sys_registered))
                  (delete (info intf) (links (mem sys_registered)))
                  (stopped (mem sys_registered))
                  (<[c:=true]> (chans (mem sys_registered)))
                  (EvConnClose (conn intf) :: EvChanClose c
                     :: EvDelete (info intf) :: events (mem sys_registered)),
          Returns (None, None)) ∧
       fired c (events (handler_leave (mem sys_registered) 0 None).1) = 1%nat.
Proof.
  intros intf.
  destruct (C2_deregistration_deletes_own_entry sample_codec own_key
              sys_registered 0 intf None reachable_registered)
    as (Hown & Hgone & _ & _ & Hrun & _).
  - vm_compute. reflexivity.
  - vm_compute. reflexivity.
  - split; [exact Hown|]. split; [exact Hgone|exact Hrun].
Defined.

Lemma C3_witness :
  let r := handler_enter sample_codec own_key (mem sys_spawned) 0
                         (answering (hello key_a 9) [] None) in
  r.2 = InTunnel key_a 9 ∧
  9 = Z.max 3 9 ∧
  events r.1 = EvHandleConn key_a 7 9
                 :: EvInsert (info (keyed (sample_out 7 3) (remote_meta key_a 9)))
                             0
                 :: events (mem sys_spawned).
Proof.
  intros r.
  assert (H2 : r.2 = InTunnel key_a 9) by (vm_compute; reflexivity).
  split; [exact H2|].
  apply (C3_effective_metric_is_max sample_codec own_key (mem sys_spawned) 0
           (sample_out 7 3) (answering (hello key_a 9) [] None)
           (remote_meta key_a 9) 3 9 r.1 key_a 9).
  - reflexivity.
  - lia.
  - lia.
  - reflexivity.
  - vm_compute. reflexivity.
  - reflexivity.
  - rewrite <- H2. apply surjective_pairing.
Defined.

Lemma C4_witness :
  handler sample_codec own_key (mem sys_incoming) 0
          (answering (hello key_a 9) allow_other None)
  = (emit (EvConnClose 1) (emit (EvConnClose 1) (mem sys_incoming)),
     Returns (None, None)).
Proof.
  apply (C4_allow_list_rejection_is_silent sample_codec own_key
           (mem sys_incoming) 0 (sample_in 1)
           (answering (hello key_a 9) allow_other None) (remote_meta key_a 9)).
  - reflexivity.
  - reflexivity.
  - reflexivity.
  - discriminate.
  - vm_compute. reflexivity.
  - reflexivity.
  - intros pinned H. discriminate H.
  - apply (bool_decide_unpack _). vm_compute. exact I.
Defined.

(** C4 as the specification states it fails: an incoming connection that
    is not forced, from a remote node whose key is not in the allow-list,
    which is not empty, gets an error when the remote node is of an
    incompatible version, and when the link pins keys that do not hold
    the key of the remote node; both checks come before the allow-list. *)
Lemma C4_counterexample :
  let io := answering (hello_v1 key_a 9) allow_other None in
  let io' := answering (hello key_a 9) allow_other None in
  let pinning := sample_pinned 4 true {[ key_b ]} in
  (heap (mem sys_incoming) !! 0%nat = Some (sample_in 1) ∧
   incoming (sample_in 1) = true ∧ force (sample_in 1) = false ∧
   AllowedPublicKeys io ≠ [] ∧
   handler_exchange sample_codec own_key (sample_in 1) io
   = inr (version.mkMetadata 1 0 key_a 9) ∧
   (EncodeToString key_a ∉ AllowedPublicKeys io) ∧
   handler sample_codec own_key (mem sys_incoming) 0 io
   = (emit (EvConnClose 1) (mem sys_incoming),
      Returns (None, Some "remote node is incompatible version"%string))) ∧
  (heap (one_link pinning) !! 0%nat = Some pinning ∧
   incoming pinning = true ∧ force pinning = false ∧
   AllowedPublicKeys io' ≠ [] ∧
   handler_exchange sample_codec own_key pinning io'
   = inr (remote_meta key_a 9) ∧
   (EncodeToString key_a ∉ AllowedPublicKeys io') ∧
   handler sample_codec own_key (one_link pinning) 0 io'
   = (emit (EvConnClose 4) (one_link pinning),
      Returns (None,
        Some "failed to connect: host sent ed25519 key that does not match pinned keys"%string))).
Proof.
  assert (Hout : EncodeToString key_a ∉ allow_other).
  { apply (bool_decide_unpack _). vm_compute. exact I. }
  split.
  - split; [reflexivity|]. split; [reflexivity|]. split; [reflexivity|].
    split; [discriminate|]. split; [vm_compute; reflexivity|].
    split; [exact Hout|]. vm_compute. reflexivity.
  - split; [reflexivity|]. split; [reflexivity|]. split; [reflexivity|].
    split; [discriminate|]. split; [vm_compute; reflexivity|].
    split; [exact Hout|]. vm_compute. reflexivity.
Qed.

Lemma C5_witness :
  handler sample_codec own_key (one_link (sample_pinned 4 false {[ key_b ]})) 0
          (answering (hello key_a 9) [] None)
  = (emit (EvConnClose 4) (one_link (sample_pinned 4 false {[ key_b ]})),
     Returns (None,
       Some "failed to connect: host sent ed25519 key that does not match pinned keys"%string))
  ∧
  handler sample_codec own_key (one_link (sample_pinned 4 true {[ key_b ]})) 0
          (answering (hello key_a 9) [] None)
  = (emit (EvConnClose 4) (one_link (sample_pinned 4 true {[ key_b ]})),
     Returns (None,
       Some "failed to connect: host sent ed25519 key that does not match pinned keys"%string)).
Proof.
  split.
  - apply (C5_pinned_mismatch_is_reported sample_codec own_key
             (one_link (sample_pinned 4 false {[ key_b ]})) 0
             (sample_pinned 4 false {[ key_b ]})
             (answering (hello key_a 9) [] None) (remote_meta key_a 9)
             {[ key_b ]}).
    + reflexivity.
    + vm_compute. reflexivity.
    + reflexivity.
    + apply (bool_decide_unpack _). vm_compute. exact I.
  - apply (C5_pinned_mismatch_is_reported sample_codec own_key
             (one_link (sample_pinned 4 true {[ key_b ]})) 0
             (sample_pinned 4 true {[ key_b ]})
             (answering (hello key_a 9) [] None) (remote_meta key_a 9)
             {[ key_b ]}).
    + reflexivity.
    + vm_compute. reflexivity.
    + reflexivity.
    + apply (bool_decide_unpack _). vm_compute. exact I.
Defined.

(** The exits of [handler] counted on the refusal by the allow-list. *)
Example handler_exits_counted_refusal :
  let io := answering (hello key_a 9) allow_other None in
  let r := handler sample_codec own_key (mem sys_incoming) 0 io in
  r.2 ≠ Panics ∧
  links r.1 = links (mem sys_incoming) ∧
  closes 1 (events r.1)
  = (closes 1 (events (mem sys_incoming))
     + match handler_validate sample_codec own_key (sample_in 1) io with
       | Forbidden => 2
       | _ => 1
       end)%nat ∧
  ∃ n, (n ≤ 1)%nat ∧
       inserts (events r.1) = (inserts (events (mem sys_incoming)) + n)%nat ∧
       deletes (events r.1) = (deletes (events (mem sys_incoming)) + n)%nat ∧
       handoffs (events r.1) = (handoffs (events (mem sys_incoming)) + n)%nat.
Proof.
  intros io r.
  apply (handler_exits_counted sample_codec own_key
           sys_incoming 0 (sample_in 1) io r.1 r.2 reachable_incoming).
  - reflexivity.
  - reflexivity.
  - apply surjective_pairing.
Qed.

(** C6.  The code at the failing input: an incoming link that is not
    forced, whose remote node sends well-formed metadata with a key the
    allow-list, which is not empty, does not hold.  The connection, not
    closed before, has had two calls of [Close()] when [handler] returns
    nil and nil: the one of [close()] in line 217 and the deferred one of
    line 147.  The registry is as before and nothing was inserted or
    deleted.  On the same link, a remote node of the same key that the
    allow-list holds goes through the tunnel engine with one [Close()],
    one insertion and one deletion. *)
Theorem C6_allow_list_refusal_closes_twice :
  let io := answering (hello key_a 9) allow_other None in
  let io' := answering (hello key_a 9) [EncodeToString key_a] None in
  handler_validate sample_codec own_key (sample_in 1) io = Forbidden ∧
  closes 1 (events (mem sys_incoming)) = 0%nat ∧
  closes 1 (events (handler sample_codec own_key (mem sys_incoming) 0 io).1)
  = 2%nat ∧
  (handler sample_codec own_key (mem sys_incoming) 0 io).2
  = Returns (None, None) ∧
  links (handler sample_codec own_key (mem sys_incoming) 0 io).1
  = links (mem sys_incoming) ∧
  inserts (events (handler sample_codec own_key (mem sys_incoming) 0 io).1)
  = 0%nat ∧
  deletes (events (handler sample_codec own_key (mem sys_incoming) 0 io).1)
  = 0%nat ∧
  closes 1 (events (handler sample_codec own_key (mem sys_incoming) 0 io').1)
  = 1%nat ∧
  inserts (events (handler sample_codec own_key (mem sys_incoming) 0 io').1)
  = 1%nat ∧
  deletes (events (handler sample_codec own_key (mem sys_incoming) 0 io').1)
  = 1%nat.
Proof. repeat split; vm_compute; reflexivity. Qed.


(** The way through the tunnel engine, on a sample: one insertion, one
    deletion, one [Close()], the closure channel closed once, and the
    error of the tunnel engine returned. *)
Example tunnel_run :
  let io := answering (hello key_a 9) [] (Some "EOF"%string) in
  let r := handler sample_codec own_key (mem sys_spawned) 0 io in
  r.2 = Returns (None, Some "EOF"%string) ∧
  links r.1 = links (mem sys_spawned) ∧
  closes 7 (events r.1) = 1%nat ∧ fired 1 (events r.1) = 1%nat ∧
  inserts (events r.1) = 1%nat ∧ deletes (events r.1) = 1%nat ∧
  handoffs (events r.1) = 1%nat.
Proof. repeat split; vm_compute; reflexivity. Qed.

(** * Further properties of link.go *)

(** ** Hexadecimal text and the options [call] builds *)

Lemma hex_byte b s :
  DecodeString (String (hextable (N.shiftr (Byte.to_N b) 4))
                  (String (hextable (N.land (Byte.to_N b) 15)) s))
  = match DecodeString s with
    | Some xs => Some (b :: xs)
    | None => None
    end.
Proof. destruct b; reflexivity. Qed.

Lemma DecodeString_EncodeToString bs :
  DecodeString (EncodeToString bs) = Some bs.
Proof.
  induction bs as [|b bs IH]; [done|].
  cbn [EncodeToString]. cbv zeta. by rewrite hex_byte, IH.
Qed.

Lemma hextable_lower n : lower_hex (hextable n).
Proof.
  unfold lower_hex.
  destruct n as [|p]; [|do 4 (try destruct p as [p|p|])];
    apply (bool_decide_unpack _); vm_compute; exact I.
Qed.

Lemma EncodeToString_lower bs : Forall lower_hex (chars (EncodeToString bs)).
Proof.
  induction bs as [|b bs IH]; cbn; [constructor|].
  apply Forall_cons; split; [apply hextable_lower|].
  apply Forall_cons; split; [apply hextable_lower|exact IH].
Qed.

Lemma length_EncodeToString bs :
  String.length (EncodeToString bs) = (2 * length bs)%nat.
Proof. induction bs as [|b bs IH]; cbn; [done|]. rewrite IH. lia. Qed.

Lemma length_keyOf src : length (keyOf src) = PublicKeySize.
Proof. unfold keyOf. by rewrite length_copy. Qed.

Lemma keyOf_id k : length k = PublicKeySize → keyOf k = k.
Proof.
  intros Hk. unfold keyOf, copy.
  rewrite take_ge by (unfold zeroKey; rewrite length_replicate; lia).
  rewrite drop_ge by (unfold zeroKey; rewrite length_replicate; lia).
  by rewrite app_nil_r.
Qed.

Lemma pin_keys_acc (acc : gset keyArray) (pubkeys : list string)
    (k : keyArray) :
  k ∈ foldl (λ (pinned : gset keyArray) (pubkey : string),
               match DecodeString pubkey with
               | Some sigPub => {[ keyOf sigPub ]} ∪ pinned
               | None => pinned
               end) acc pubkeys
  ↔ k ∈ acc ∨ ∃ s bs, s ∈ pubkeys ∧ DecodeString s = Some bs ∧ k = keyOf bs.
Proof.
  revert acc. induction pubkeys as [|s rest IH]; intros acc; cbn.
  - split; [by left|]. intros [H|(s & bs & Hs & _)]; [done|].
    by apply elem_of_nil in Hs.
  - rewrite IH. destruct (DecodeString s) as [bs|] eqn:E.
    + rewrite elem_of_union, elem_of_singleton. split.
      * intros [[->|H]|(s' & bs' & Hs' & Hd & ->)]; eauto.
        -- right. exists s, bs. split; [by left|done].
        -- right. exists s', bs'. split; [by right|done].
      * intros [H|(s' & bs' & Hs' & Hd & ->)]; [by left; right|].
        apply elem_of_cons in Hs' as [->|Hs'].
        -- left. left. congruence.
        -- right. eauto.
    + split.
      * intros [H|(s' & bs' & Hs' & Hd & ->)]; [by left|].
        right. exists s', bs'. split; [by right|done].
      * intros [H|(s' & bs' & Hs' & Hd & ->)]; [by left|].
        apply elem_of_cons in Hs' as [->|Hs']; [congruence|]. right. eauto.
Qed.

(** X1.  The pinned keys [call] builds from the [ed25519] parameters are
    exactly the parameters that are hexadecimal text, decoded and cut or
    padded with zero bytes to the size of a key; every one of them has the
    size of a key.  The set is nil exactly when there is no such parameter
    at all. *)
Theorem X1_pinned_keys_of_call u :
  (∀ pinned k, pinnedEd25519Keys (call_options u) = Some pinned →
     (k ∈ pinned ↔
      ∃ pubkeys s bs, Query u !! "ed25519"%string = Some pubkeys ∧
                      s ∈ pubkeys ∧ DecodeString s = Some bs ∧ k = keyOf bs) ∧
     (k ∈ pinned → length k = PublicKeySize)) ∧
  (pinnedEd25519Keys (call_options u) = None ↔
   Query u !! "ed25519"%string = None ∨
   Query u !! "ed25519"%string = Some []).
Proof.
  unfold call_options. cbn [pinnedEd25519Keys].
  destruct (Query u !! "ed25519"%string) as [pubkeys|] eqn:Hq.
  2:{ split; [intros ? ? [=]|]. split; auto. }
  destruct pubkeys as [|s0 rest].
  { cbn. split; [intros ? ? [=]|]. split; auto. }
  rewrite bool_decide_eq_true_2 by (cbn; lia).
  split.
  - intros pinned k [= <-].
    assert (Hiff : k ∈ pin_keys (s0 :: rest) ↔
              ∃ pubkeys s bs, Some (s0 :: rest) = Some pubkeys ∧
                s ∈ pubkeys ∧ DecodeString s = Some bs ∧ k = keyOf bs).
    { unfold pin_keys. rewrite pin_keys_acc. split.
      - intros [H|(s & bs & Hs & Hd & ->)]; [by apply elem_of_empty in H|].
        by exists (s0 :: rest), s, bs.
      - intros (pk & s & bs & [= <-] & Hs & Hd & ->). right. eauto. }
    split; [exact Hiff|].
    intros Hk. apply Hiff in Hk as (_ & _ & bs & _ & _ & _ & ->).
    apply length_keyOf.
  - split; [discriminate|]. intros [H|H]; discriminate.
Qed.

Lemma ParseUint_digits_range s n :
  0 ≤ n ≤ 255 → 0 ≤ ParseUint_digits s n ≤ 255.
Proof.
  revert n. induction s as [|c s IH]; intros n Hn; cbn; [done|].
  destruct (_ && _) eqn:Hd; [|lia].
  apply andb_prop in Hd as [H0 H9]. apply Z.leb_le in H0, H9.
  destruct (Z.ltb_spec 255 (n * 10 + (Z.of_N (N_of_ascii c) - 48))); [lia|].
  apply IH. lia.
Qed.

Lemma ParseUint_bounds s : 0 ≤ ParseUint s ≤ 255.
Proof.
  destruct s as [|c s]; [done|]. unfold ParseUint.
  by apply ParseUint_digits_range.
Qed.

Lemma ParseUint_pretty (n : N) :
  (n ≤ 255)%N → ParseUint (pretty n) = Z.of_N n.
Proof.
  intros Hn.
  assert (Hall : Forall (λ k : N, ParseUint (pretty k) = Z.of_N k)
                        (N.of_nat <$> seq 0 256)).
  { apply (bool_decide_unpack _). vm_compute. exact I. }
  rewrite Forall_forall in Hall. apply Hall.
  apply list_elem_of_fmap. exists (N.to_nat n). split; [lia|].
  apply elem_of_seq. lia.
Qed.

(** X3.  The metric [call] takes from the query is a uint8 value, and the
    conversion to uint8 loses nothing: with exactly one [metric] parameter
    it is what [ParseUint] makes of it (the number itself for the decimal
    text of a number up to 255, never more than 255); with no [metric]
    parameter, or with more than one, it is 0. *)
Theorem X3_metric_of_call u :
  0 ≤ metric (call_options u) ≤ 255 ∧
  (∀ ms, Query u !! "metric"%string = Some [ms] →
         metric (call_options u) = ParseUint ms) ∧
  (∀ n : N, (n ≤ 255)%N →
            Query u !! "metric"%string = Some [pretty n] →
            metric (call_options u) = Z.of_N n) ∧
  ((∀ ms, Query u !! "metric"%string ≠ Some [ms]) →
   metric (call_options u) = 0).
Proof.
  assert (Hone : ∀ ms, Query u !! "metric"%string = Some [ms] →
                       metric (call_options u) = ParseUint ms).
  { intros ms Hq. unfold call_options. cbn [metric]. rewrite Hq.
    unfold uint8. apply Z.mod_small. pose proof (ParseUint_bounds ms). lia. }
  assert (Hnone : (∀ ms, Query u !! "metric"%string ≠ Some [ms]) →
                  metric (call_options u) = 0).
  { intros Hq. unfold call_options. cbn [metric].
    destruct (Query u !! "metric"%string) as [[|ms [|ms' rest]]|] eqn:E;
      try done. by destruct (Hq ms). }
  repeat split; try done.
  - destruct (Query u !! "metric"%string) as [[|ms [|ms' rest]]|] eqn:E;
      try (rewrite Hnone; [lia|by intros ms0 [=]]).
    rewrite (Hone ms) by done. apply ParseUint_bounds.
  - destruct (Query u !! "metric"%string) as [[|ms [|ms' rest]]|] eqn:E;
      try (rewrite Hnone; [lia|by intros ms0 [=]]).
    rewrite (Hone ms) by done. apply ParseUint_bounds.
  - intros n Hn Hq. rewrite (Hone _ Hq). by apply ParseUint_pretty.
Qed.

Section MoreChecks.
Variable V : version_codec.
Variable public : list byte.

(** The options of [call] for one [ed25519] parameter that is the
    hexadecimal text of a key. *)
Lemma call_pins_single u k :
  length k = PublicKeySize →
  Query u !! "ed25519"%string = Some [EncodeToString k] →
  pinnedEd25519Keys (call_options u) = Some {[ k ]}.
Proof.
  intros Hk Hq.
  assert (Hset : pin_keys [EncodeToString k] = {[ k ]}).
  { unfold pin_keys. cbn [foldl]. rewrite DecodeString_EncodeToString.
    rewrite keyOf_id by done. by rewrite union_empty_r_L. }
  unfold call_options. cbn [pinnedEd25519Keys]. rewrite Hq.
  rewrite bool_decide_eq_true_2 by (cbn; lia). by rewrite Hset.
Qed.

(** X2.  A URL that pins one key by its hexadecimal text, as
    [EncodeToString] writes it: the options of [call] pin this key and no
    other, and an outgoing handshake with these options that has come
    through the exchange and the version check is accepted when the remote
    node sent this key and fails with the error of the pinned keys when it
    sent another one. *)
Theorem X2_pin_by_hex_text u k intf io meta :
  length k = PublicKeySize →
  Query u !! "ed25519"%string = Some [EncodeToString k] →
  options intf = call_options u → incoming intf = false →
  handler_exchange V public intf io = inr meta → check V meta = true →
  pinnedEd25519Keys (call_options u) = Some {[ k ]} ∧
  ((keyOf (version.key meta) = k ∧
    ∃ m, handler_validate V public intf io = Accepted meta m) ∨
   (keyOf (version.key meta) ≠ k ∧
    handler_validate V public intf io
    = Fatal "failed to connect: host sent ed25519 key that does not match pinned keys")).
Proof.
  intros Hk Hq Hopt Hinc Hx Hchk.
  pose proof (call_pins_single u k Hk Hq) as Hpin.
  split; [done|].
  rewrite (validate_after_exchange _ _ _ _ _ Hx), Hchk, Hopt, Hpin, Hinc.
  cbn [negb andb].
  destruct (decide (keyOf (version.key meta) = k)) as [Heq|Hne].
  - left. split; [done|].
    rewrite bool_decide_eq_false_2; [eauto|].
    intros Hn. apply Hn. by apply elem_of_singleton.
  - right. split; [done|].
    rewrite bool_decide_eq_true_2; [done|].
    intros Hin. by apply elem_of_singleton in Hin.
Qed.

Lemma validate_forbidden_iff intf io :
  handler_validate V public intf io = Forbidden ↔
  ∃ meta, handler_exchange V public intf io = inr meta ∧
          check V meta = true ∧ pinned_ok (options intf) meta ∧
          incoming intf = true ∧ force intf = false ∧
          AllowedPublicKeys io ≠ [] ∧
          EncodeToString (version.key meta) ∉ AllowedPublicKeys io.
Proof.
  split.
  - destruct (handler_exchange V public intf io) as [e|meta] eqn:Hx.
    { unfold handler_validate. by rewrite Hx. }
    rewrite (validate_after_exchange _ _ _ _ _ Hx).
    destruct (check V meta) eqn:Hchk; [|done]. cbn [negb].
    destruct (match pinnedEd25519Keys (options intf) with
              | Some _ => _ | None => _ end) eqn:Hp; [done|].
    destruct (incoming intf) eqn:Hinc; [|done].
    destruct (force intf) eqn:Hf; [done|]. cbn [negb andb].
    destruct (scan_allowed _ _ _) eqn:Hs; [done|]. intros _.
    exists meta. repeat split; try done.
    + intros pinned Hpin. rewrite Hpin in Hp.
      apply bool_decide_eq_false_1 in Hp.
      destruct (decide (keyOf (version.key meta) ∈ pinned)); [done|].
      by destruct Hp.
    + intros Hnil. rewrite Hnil in Hs. done.
    + intros Hin. apply not_true_iff_false in Hs. apply Hs.
      apply scan_allowed_spec. by left.
  - intros (meta & Hx & Hchk & Hpin & Hinc & Hf & Hne & Hout).
    rewrite (validate_after_exchange _ _ _ _ _ Hx), Hchk, Hinc, Hf.
    cbn [negb andb].
    assert (match pinnedEd25519Keys (options intf) with
            | Some pinned => bool_decide (keyOf (version.key meta) ∉ pinned)
            | None => false
            end = false) as ->.
    { destruct (pinnedEd25519Keys (options intf)) as [pinned|] eqn:E; [|done].
      apply bool_decide_eq_false_2. intros Hn. by apply Hn, Hpin. }
    assert (scan_allowed (EncodeToString (version.key meta))
              (AllowedPublicKeys io)
              (bool_decide (length (AllowedPublicKeys io) = 0%nat)) = false)
      as ->; [|done].
    apply not_true_is_false. rewrite scan_allowed_spec.
    intros [H|H]; [done|]. apply bool_decide_eq_true_1 in H.
    by destruct (AllowedPublicKeys io).
Qed.

(** X4.  [handler] refuses a connection in silence in one case only: the
    exchange has delivered the remote metadata, the version check and the
    pinned keys have passed, the connection is incoming and not forced,
    the allow-list is not empty and does not hold the hexadecimal text of
    the remote key.  So an outgoing or a forced connection, an empty
    allow-list, or a listed key is never refused this way. *)
Theorem X4_silent_refusal_exactly intf io :
  handler_validate V public intf io = Forbidden ↔
  ∃ meta, handler_exchange V public intf io = inr meta ∧
          check V meta = true ∧ pinned_ok (options intf) meta ∧
          incoming intf = true ∧ force intf = false ∧
          AllowedPublicKeys io ≠ [] ∧
          EncodeToString (version.key meta) ∉ AllowedPublicKeys io.
Proof. apply validate_forbidden_iff. Qed.

(** X5.  The allow-list is compared as text with the lower-case
    hexadecimal form of the remote key.  An entry that has a character
    outside 0-9 and a-f (an upper-case digit, for one) stands for no key:
    when every entry of a list that is not empty is of this kind, every
    incoming connection that is not forced and has passed the checks
    before is refused in silence, whatever key the remote node sent. *)
Theorem X5_allow_list_is_lower_case_text intf io meta :
  incoming intf = true → force intf = false →
  AllowedPublicKeys io ≠ [] →
  Forall (λ k, ¬ Forall lower_hex (chars k)) (AllowedPublicKeys io) →
  handler_exchange V public intf io = inr meta →
  check V meta = true → pinned_ok (options intf) meta →
  handler_validate V public intf io = Forbidden.
Proof.
  intros Hinc Hf Hne Hall Hx Hchk Hpin.
  apply validate_forbidden_iff. exists meta. repeat split; try done.
  intros Hin. rewrite Forall_forall in Hall.
  apply (Hall _ Hin). apply EncodeToString_lower.
Qed.
End MoreChecks.

(** ** More of [handler] *)





Section Shapes.
Variable V : version_codec.
Variable public : list byte.

(** The three things [handler_enter] can do to the state. *)
Lemma handler_enter_shape w p io :
  let r := handler_enter V public w p io in
  (heap r.1 = heap w ∧ links r.1 = links w ∧ stopped r.1 = stopped w ∧
   chans r.1 = chans w ∧ ∃ o, r.2 = Exit o) ∨
  (∃ intf meta, heap w !! p = Some intf ∧
     heap r.1 = <[p:=keyed intf meta]> (heap w) ∧ links r.1 = links w ∧
     stopped r.1 = stopped w ∧ chans r.1 = chans w ∧ ∃ o, r.2 = Exit o) ∨
  (∃ intf meta m, heap w !! p = Some intf ∧
     handler_validate V public intf io = Accepted meta m ∧
     links w !! info (keyed intf meta) = None ∧
     r = (registered w p intf meta m,
          InTunnel (key (info (keyed intf meta))) m)).
Proof.
  intros r. subst r.
  destruct (heap w !! p) as [intf|] eqn:Hi.
  2:{ left. unfold handler_enter. rewrite Hi. cbn. eauto 10. }
  destruct (handler_validate V public intf io) as [e| |meta m] eqn:Hv.
  - left. rewrite (handler_enter_fatal _ _ _ _ _ _ _ Hi Hv). cbn. eauto 10.
  - left. rewrite (handler_enter_forbidden _ _ _ _ _ _ Hi Hv). cbn. eauto 10.
  - destruct (links w !! info (keyed intf meta)) as [old|] eqn:Hold.
    + right. left. exists intf, meta.
      rewrite (handler_enter_duplicate _ _ _ _ _ _ _ _ _ Hi Hv Hold). cbn.
      eauto 10.
    + right. right. exists intf, meta, m.
      by rewrite (handler_enter_fresh _ _ _ _ _ _ _ _ Hi Hv Hold).
Qed.


(** X6.  The version check comes before the pinned keys and the
    allow-list: when the remote metadata fails it, [handler] closes the
    connection and returns the error of the version, for an incoming or an
    outgoing link, whatever its options and whatever the allow-list; the
    registry is as before. *)
Theorem X6_version_check_comes_first w p intf io meta :
  heap w !! p = Some intf →
  handler_exchange V public intf io = inr meta →
  check V meta = false →
  handler V public w p io
  = (emit (EvConnClose (conn intf)) w,
     Returns (None, Some "remote node is incompatible version"%string)).
Proof.
  intros Hi Hx Hchk. apply handler_exit. apply handler_enter_fatal; [done|].
  by rewrite (validate_after_exchange _ _ _ _ _ Hx), Hchk.
Qed.

(** X7.  When both halves of the exchange complete with the full count
    and the bytes left in the buffer do not decode, [handler] closes the
    connection and returns the error of the decoding; the registry is as
    before. *)
Theorem X7_undecodable_metadata_is_fatal w p intf io data :
  heap w !! p = Some intf →
  sent V public intf io →
  conn_ReadFull io (30 * Second) (conn intf)
                (length (encode V (handler_metadata V public intf)))
  = Completed (Z.of_nat (length (encode V (handler_metadata V public intf))),
               None, data) →
  decode V (copy (encode V (handler_metadata V public intf)) data) = None →
  handler V public w p io
  = (emit (EvConnClose (conn intf)) w,
     Returns (None, Some "failed to decode metadata"%string)).
Proof.
  intros Hi Hs Hr Hd. apply handler_exit. apply handler_enter_fatal; [done|].
  unfold handler_validate, handler_exchange. red in Hs. cbv zeta in Hs.
  rewrite Hs. cbv zeta.
  rewrite bool_decide_eq_false_2 by (intros Hne; by apply Hne).
  rewrite Hr. cbv zeta. rewrite length_copy.
  rewrite bool_decide_eq_false_2 by (intros Hne; by apply Hne).
  by rewrite Hd.
Qed.

(** X8.  What [handler] returns in a reachable state: never a panic, and
    never a channel together with an error.  A channel comes back only
    for a duplicate; it is then the open closure channel of another link
    that is live, and nothing was handed to the tunnel engine. *)
Theorem X8_results_of_handler s p intf io w' r :
  reachable V public s →
  procs s !! p = Some Created → heap (mem s) !! p = Some intf →
  handler V public (mem s) p io = (w', r) →
  ∃ ch err, r = Returns (ch, err) ∧ (ch = None ∨ err = None) ∧
    ∀ c, ch = Some c →
      handoffs (events w') = handoffs (events (mem s)) ∧
      ∃ q l, q ≠ p ∧ live s q ∧ heap (mem s) !! q = Some l ∧
             closed l = Some c ∧ chans (mem s) !! c = Some false.
Proof.
  intros Hr Hp Hi. pose proof (reachable_consistent _ _ _ Hr) as Hs.
  destruct (handler_validate V public intf io) as [e| |meta m] eqn:Hv.
  - rewrite (handler_exit _ _ _ _ _ _ _
               (handler_enter_fatal _ _ _ _ _ _ _ Hi Hv)).
    intros [= <- <-]. exists None, (Some e).
    split; [done|]. split; [by left|]. intros c [=].
  - rewrite (handler_exit _ _ _ _ _ _ _
               (handler_enter_forbidden _ _ _ _ _ _ Hi Hv)).
    intros [= <- <-]. exists None, None.
    split; [done|]. split; [by left|]. intros c [=].
  - destruct (links (mem s) !! info (keyed intf meta)) as [old|] eqn:Hold.
    + destruct (handler_duplicate_run _ _ s p intf io meta m old
                  Hs Hp Hi Hv Hold)
        as (oldIntf & c & Ho & Hlive & Hne & Hcl & Hch & Hh).
      rewrite Hh. intros [= <- <-]. exists (Some c), None.
      split; [done|]. split; [by right|]. intros c' [= <-]. split.
      * unfold emit, store. cbn [events]. by rewrite handoffs_cons.
      * exists old, oldIntf. by repeat split.
    + rewrite (handler_fresh_run _ _ _ _ _ _ _ _ Hi Hv Hold).
      intros [= <- <-]. eexists None, _.
      split; [done|]. split; [by left|]. intros c [=].
Qed.

(** X12.  In a reachable state no step of a handler panics: the part up
    to the tunnel engine returns or reaches the tunnel engine, and the
    part after the tunnel engine returns the error of the tunnel engine
    and no channel. *)
Theorem X12_handlers_do_not_panic s :
  reachable V public s →
  (∀ p io, procs s !! p = Some Created →
           (handler_enter V public (mem s) p io).2 ≠ Exit Panics) ∧
  (∀ p err, live s p →
            (handler_leave (mem s) p err).2 = Returns (None, err)).
Proof.
  intros Hr. pose proof (reachable_consistent _ _ _ Hr) as Hs. split.
  - intros p io Hp.
    destruct (heap (mem s) !! p) as [intf|] eqn:Hi.
    2:{ apply lookup_lt_Some in Hp. apply lookup_ge_None in Hi.
        rewrite (con_procs _ Hs) in Hp. lia. }
    destruct (handler_validate V public intf io) as [e| |meta m] eqn:Hv.
    + by rewrite (handler_enter_fatal _ _ _ _ _ _ _ Hi Hv).
    + by rewrite (handler_enter_forbidden _ _ _ _ _ _ Hi Hv).
    + destruct (links (mem s) !! info (keyed intf meta)) as [old|] eqn:Hold.
      * rewrite (handler_enter_duplicate _ _ _ _ _ _ _ _ _ Hi Hv Hold). cbn.
        destruct (con_entry _ Hs _ _ Hold) as (Hlive & oldIntf & Ho & _).
        assert (old ≠ p). { unfold live in Hlive. congruence. }
        rewrite list_lookup_insert_ne by done. by rewrite Ho.
      * by rewrite (handler_enter_fresh _ _ _ _ _ _ _ _ Hi Hv Hold).
  - intros p err Hp.
    destruct (handler_leave (mem s) p err) as [w' r] eqn:E.
    by destruct (handler_leave_consistent s p err w' r Hs Hp E).
Qed.
End Shapes.

(** ** More of the registry under concurrent handlers *)

Lemma links_call_shape u sintf w :
  heap (links_call u sintf w).1 = heap w ∧
  links (links_call u sintf w).1 = links w ∧
  stopped (links_call u sintf w).1 = stopped w ∧
  chans (links_call u sintf w).1 = chans w.
Proof. unfold links_call. by repeat case_match. Qed.

Lemma links_stop_shape e w :
  heap (links_stop e w).1 = heap w ∧ links (links_stop e w).1 = links w ∧
  stopped (links_stop e w).1 = stopped w ∧
  (chans (links_stop e w).1 = chans w ∨
   ∃ c, stopped w = Some c ∧ chans (links_stop e w).1 = <[c:=true]> (chans w)).
Proof.
  unfold links_stop, close_chan.
  destruct (stopped w) as [c|] eqn:Hc; [|by auto].
  destruct (chans w !! c) as [[]|]; cbn; eauto 10.
Qed.

Section Life.
Variable V : version_codec.
Variable public : list byte.

(** What the deferred functions do in a consistent state. *)
Lemma handler_leave_run s p intf err :
  consistent s → live s p → heap (mem s) !! p = Some intf →
  ∃ c, closed intf = Some c ∧ chans (mem s) !! c = Some false ∧
       links (mem s) !! info intf = Some p ∧
       handler_leave (mem s) p err
       = (mkWorld (heap (mem s)) (delete (info intf) (links (mem s)))
                  (stopped (mem s)) (<[c:=true]> (chans (mem s)))
                  (EvConnClose (conn intf) :: EvChanClose c
                     :: EvDelete (info intf) :: events (mem s)),
          Returns (None, err)).
Proof.
  intros Hs Hp Hi.
  destruct (con_live _ Hs p Hp) as (x & c & Hx & Hk & Hcl & Hch).
  assert (x = intf) as -> by congruence.
  exists c. repeat split; try done.
  unfold handler_leave. rewrite Hi, Hcl. cbn. by rewrite Hch.
Qed.



(** What a step does to the store, the program counters and the
    channels. *)
Lemma step_effect s s' :
  consistent s → step V public s s' →
  (∃ l, key (info l) = zeroKey ∧ closed l = None ∧
        heap (mem s') = heap (mem s) ++ [l] ∧
        procs s' = procs s ++ [Created] ∧
        chans (mem s') = chans (mem s)) ∨
  (∃ p intf x, procs s !! p = Some Created ∧
        heap (mem s) !! p = Some intf ∧
        (x = intf ∨ ∃ meta, x = keyed intf meta) ∧
        heap (mem s') = <[p:=x]> (heap (mem s)) ∧
        procs s' = <[p:=Exited]> (procs s) ∧
        chans (mem s') = chans (mem s)) ∨
  (∃ p intf meta, procs s !! p = Some Created ∧
        heap (mem s) !! p = Some intf ∧
        heap (mem s')
        = <[p:=set_closed (keyed intf meta)
                          (Some (length (chans (mem s))))]> (heap (mem s)) ∧
        procs s' = <[p:=Tunnel]> (procs s) ∧
        chans (mem s') = chans (mem s) ++ [false]) ∨
  (∃ p intf c, live s p ∧ heap (mem s) !! p = Some intf ∧
        closed intf = Some c ∧ chans (mem s) !! c = Some false ∧
        heap (mem s') = heap (mem s) ∧
        procs s' = <[p:=Exited]> (procs s) ∧
        chans (mem s') = <[c:=true]> (chans (mem s))) ∨
  (heap (mem s') = heap (mem s) ∧ procs s' = procs s ∧
   (chans (mem s') = chans (mem s) ∨
    ∃ c, chans (mem s') = <[c:=true]> (chans (mem s)))).
Proof.
  intros Hs Hstep. destruct Hstep as
    [s c n t lo re inc f o|s p io w' pr Hp He|s p err w' r Hp He
    |s u sintf|s e w' e' He]; cbn [mem procs].
  - left. eexists. by repeat split.
  - assert (Hi : is_Some (heap (mem s) !! p)).
    { apply lookup_lt_is_Some. rewrite <- (con_procs _ Hs).
      by eapply lookup_lt_Some. }
    destruct Hi as [intf Hi].
    destruct (handler_enter_shape V public (mem s) p io)
      as [(Hh & _ & _ & Hc & o & Ho)
         |[(intf' & meta & Hi' & Hh & _ & _ & Hc & o & Ho)
          |(intf' & meta & m & Hi' & _ & _ & Hr)]];
      rewrite He in *; cbn [fst snd] in *.
    + right. left. exists p, intf, intf. subst pr. cbn.
      repeat split; try done; [by left|].
      rewrite Hh. symmetry. by apply list_insert_id.
    + right. left. exists p, intf, (keyed intf meta). subst pr. cbn.
      assert (intf' = intf) as -> by congruence.
      repeat split; try done. right. by exists meta.
    + right. right. left. exists p, intf, meta.
      assert (intf' = intf) as -> by congruence.
      injection Hr as -> ->. by repeat split.
  - right. right. right. left.
    assert (Hi : is_Some (heap (mem s) !! p)).
    { apply lookup_lt_is_Some. rewrite <- (con_procs _ Hs).
      by eapply lookup_lt_Some. }
    destruct Hi as [intf Hi].
    destruct (handler_leave_run s p intf err Hs Hp Hi)
      as (c & Hcl & Hch & _ & Hrun).
    rewrite Hrun in He. injection He as <- _.
    exists p, intf, c. by repeat split.
  - right. right. right. right.
    destruct (links_call_shape u sintf (mem s)) as (Hh & _ & _ & Hc).
    repeat split; try done. by left.
  - right. right. right. right.
    assert (w' = (links_stop e (mem s)).1) as -> by by rewrite He.
    destruct (links_stop_shape e (mem s)) as (Hh & _ & _ & [Hc|(c & _ & Hc)]).
    + repeat split; try done. by left.
    + repeat split; try done. right. by exists c.
Qed.
End Life.

Lemma lookup_insert_true (l : list bool) c c' :
  l !! c' = Some true → <[c:=true]> l !! c' = Some true.
Proof.
  intros H. destruct (decide (c = c')) as [->|Hne].
  - rewrite list_lookup_insert_eq; [done|]. by eapply lookup_lt_Some.
  - by rewrite list_lookup_insert_ne.
Qed.

Section Settled.
Variable V : version_codec.
Variable public : list byte.

Lemma settled_step s s' :
  consistent s → settled s → step V public s s' → settled s'.
Proof.
  intros Hs [Ha Hb] Hstep.
  pose proof (con_procs _ Hs) as Hlen.
  destruct (step_effect V public s s' Hs Hstep)
    as [(l0 & Hk & Hcl & Hh & Hp & Hc)
       |[(p & intf & x & Hp0 & Hi & Hx & Hh & Hp & Hc)
        |[(p & intf & meta & Hp0 & Hi & Hh & Hp & Hc)
         |[(p & intf & c & Hlive & Hi & Hcl & Hch & Hh & Hp & Hc)
          |(Hh & Hp & Hc)]]]];
    split; rewrite ?Hh, ?Hp, ?Hc.
  - intros q l Hq. apply lookup_app_Some in Hq as [Hq|[Hle Hq]].
    + destruct (Ha q l Hq) as [H1 H2]. split; [done|].
      intros Hcr. apply H2. rewrite lookup_app_l in Hcr; [done|].
      rewrite Hlen. by eapply lookup_lt_Some.
    + destruct (q - length (heap (mem s)))%nat as [|k]; cbn in Hq; [|done].
      injection Hq as <-. rewrite Hk. split; [|done].
      unfold zeroKey. by rewrite length_replicate.
  - intros q l c Hq Hex Hcl'. apply lookup_app_Some in Hq as [Hq|[Hle Hq]].
    + apply (Hb q l c Hq); [|done].
      rewrite lookup_app_l in Hex; [done|].
      rewrite Hlen. by eapply lookup_lt_Some.
    + destruct (q - length (heap (mem s)))%nat as [|k]; cbn in Hq; [|done].
      injection Hq as <-. congruence.
  - intros q l Hq.
    apply list_lookup_insert_Some in Hq as [(<- & <- & Hlt)|[Hne Hq]].
    + rewrite list_lookup_insert_eq by lia. split; [|done].
      destruct (Ha p intf Hi) as [H1 _].
      destruct Hx as [->|[meta ->]]; [done|].
      unfold keyed, set_info_key. cbn. by rewrite length_copy.
    + rewrite list_lookup_insert_ne by done. by apply Ha.
  - intros q l c Hq Hex Hcl'.
    apply list_lookup_insert_Some in Hq as [(<- & <- & Hlt)|[Hne Hq]].
    + destruct (Ha p intf Hi) as [_ H2]. destruct (H2 Hp0) as [_ Hnil].
      destruct Hx as [->|[meta ->]]; cbn in Hcl'; congruence.
    + rewrite list_lookup_insert_ne in Hex by done. by eapply Hb.
  - intros q l Hq.
    apply list_lookup_insert_Some in Hq as [(<- & <- & Hlt)|[Hne Hq]].
    + rewrite list_lookup_insert_eq by lia. split; [|done].
      destruct (Ha p intf Hi) as [H1 _].
      unfold keyed, set_info_key. cbn. by rewrite length_copy.
    + rewrite list_lookup_insert_ne by done. by apply Ha.
  - intros q l c Hq Hex Hcl'.
    apply list_lookup_insert_Some in Hq as [(<- & <- & Hlt)|[Hne Hq]].
    + rewrite list_lookup_insert_eq in Hex by lia. done.
    + rewrite list_lookup_insert_ne in Hex by done.
      pose proof (Hb q l c Hq Hex Hcl') as Ht.
      rewrite lookup_app_l; [done|]. by eapply lookup_lt_Some.
  - intros q l Hq. destruct (Ha q l Hq) as [H1 H2]. split; [done|].
    intros Hcr. apply H2.
    apply list_lookup_insert_Some in Hcr as [(_ & [=] & _)|[_ Hcr]]. done.
  - intros q l c' Hq Hex Hcl'.
    destruct (decide (q = p)) as [->|Hne].
    + assert (l = intf) as -> by congruence.
      assert (c' = c) as -> by congruence.
      rewrite list_lookup_insert_eq; [done|]. by eapply lookup_lt_Some.
    + rewrite list_lookup_insert_ne in Hex by done.
      apply lookup_insert_true. by eapply Hb.
  - exact Ha.
  - intros q l c' Hq Hex Hcl'. pose proof (Hb q l c' Hq Hex Hcl') as Ht.
    destruct Hc as [->|[c ->]]; [done|]. by apply lookup_insert_true.
Qed.

Lemma reachable_settled s : reachable V public s → settled s.
Proof.
  induction 1 as [|s s' Hr IH Hstep].
  - split; cbn; intros ? ? *; by rewrite lookup_nil.
  - eapply settled_step; [|done|done]. by eapply reachable_consistent.
Qed.

(** X10.  In every reachable state every link has a key of the size of a
    key, the zero key as long as its handler has not passed the checks,
    and every key of the registry has the size of a key: the registry is
    never keyed by a key of another length, however long the key is that
    a remote node sends. *)
Theorem X10_keys_have_the_size_of_a_key s :
  reachable V public s →
  (∀ q l, heap (mem s) !! q = Some l →
          length (key (info l)) = PublicKeySize) ∧
  (∀ q l, heap (mem s) !! q = Some l → procs s !! q = Some Created →
          key (info l) = zeroKey) ∧
  (∀ k p, links (mem s) !! k = Some p → length (key k) = PublicKeySize).
Proof.
  intros Hr. pose proof (reachable_consistent _ _ _ Hr) as Hs.
  pose proof (reachable_settled _ Hr) as [Ha _]. repeat split.
  - intros q l Hq. by apply (Ha q l).
  - intros q l Hq Hc. by apply (Ha q l).
  - intros k p Hk. destruct (con_entry _ Hs k p Hk) as (_ & l & Hl & <-).
    by apply (Ha p l).
Qed.

(** X15.  The life of a closure channel, in every reachable state: a link
    whose handler has not registered it has no channel and is not in the
    registry; a link whose handler is in the tunnel engine has an open
    channel and is the entry of its key; a link whose handler has
    returned is not in the registry, and its channel, if it got one, is
    closed. *)
Theorem X15_life_of_the_closure_channel s p l :
  reachable V public s → heap (mem s) !! p = Some l → lifecycle s p l.
Proof.
  intros Hr Hl. pose proof (reachable_consistent _ _ _ Hr) as Hs.
  pose proof (reachable_settled _ Hr) as [Ha Hb].
  unfold lifecycle.
  destruct (procs s !! p) as [[| |]|] eqn:Hp.
  - split; [by apply (Ha p l)|].
    intros Hk. destruct (con_entry _ Hs _ _ Hk) as [Hlive _].
    unfold live in Hlive. congruence.
  - destruct (con_live _ Hs p Hp) as (x & c & Hx & Hk & Hcl & Hch).
    assert (x = l) as -> by congruence. by exists c.
  - split.
    + intros Hk. destruct (con_entry _ Hs _ _ Hk) as [Hlive _].
      unfold live in Hlive. congruence.
    + intros c Hc. by eapply Hb.
  - apply lookup_lt_Some in Hl. apply lookup_ge_None in Hp.
    rewrite (con_procs _ Hs) in Hp. lia.
Qed.

(** X13.  A key is free again once its link has left.  While link [p]
    is live, the handler of another link that has passed the checks with
    the same key returns the channel of [p] and registers nothing; after
    the deferred function of [p] has run, the same handler registers its
    link and reaches the tunnel engine. *)
Theorem X13_key_is_free_after_departure s p intf err q intfq io meta m :
  reachable V public s →
  live s p → heap (mem s) !! p = Some intf →
  procs s !! q = Some Created → heap (mem s) !! q = Some intfq →
  handler_validate V public intfq io = Accepted meta m →
  info (keyed intfq meta) = info intf →
  handler V public (mem s) q io
  = (emit (EvConnClose (conn intfq)) (store q (keyed intfq meta) (mem s)),
     Returns (closed intf, None)) ∧
  handler_enter V public (handler_leave (mem s) p err).1 q io
  = (registered (handler_leave (mem s) p err).1 q intfq meta m,
     InTunnel (key (info (keyed intfq meta))) m).
Proof.
  intros Hr Hp Hi Hq Hiq Hv Hinfo.
  pose proof (reachable_consistent _ _ _ Hr) as Hs.
  destruct (handler_leave_run s p intf err Hs Hp Hi)
    as (c & Hcl & Hch & Hk & Hrun).
  split.
  - assert (Hold : links (mem s) !! info (keyed intfq meta) = Some p)
      by by rewrite Hinfo.
    destruct (handler_duplicate_run _ _ s q intfq io meta m p
                Hs Hq Hiq Hv Hold)
      as (oldIntf & c' & Ho & _ & _ & Hcl' & _ & Hh).
    rewrite Hh. assert (oldIntf = intf) as -> by congruence.
    by rewrite Hcl'.
  - rewrite Hrun. cbn [fst]. apply handler_enter_fresh; try done.
    cbn [links]. rewrite Hinfo. apply lookup_delete_eq.
Qed.

(** X14.  Of two links that pass the checks with the same key while the
    key is free, the one whose handler comes to the registry first
    registers and goes on to the tunnel engine; the other one then finds
    it and returns the channel the first one has just made.  The registry
    gains one entry, for the first link. *)
Theorem X14_first_comer_registers w p q ip iq iop ioq mp mq m1 m2 :
  p ≠ q → heap w !! p = Some ip → heap w !! q = Some iq →
  handler_validate V public ip iop = Accepted mp m1 →
  handler_validate V public iq ioq = Accepted mq m2 →
  info (keyed iq mq) = info (keyed ip mp) →
  links w !! info (keyed ip mp) = None →
  ∃ w1 w2,
    handler_enter V public w p iop
    = (w1, InTunnel (key (info (keyed ip mp))) m1) ∧
    handler_enter V public w1 q ioq
    = (w2, Exit (Returns (Some (length (chans w)), None))) ∧
    links w2 = <[info (keyed ip mp):=p]> (links w) ∧
    inserts (events w2) = S (inserts (events w)) ∧
    handoffs (events w2) = S (handoffs (events w)).
Proof.
  intros Hne Hp Hq Hvp Hvq Hinfo Hfree.
  exists (registered w p ip mp m1).
  eexists. split; [by apply handler_enter_fresh|].
  assert (Hq1 : heap (registered w p ip mp m1) !! q = Some iq).
  { unfold registered. cbn [heap]. by rewrite list_lookup_insert_ne. }
  assert (Hold : links (registered w p ip mp m1) !! info (keyed iq mq) = Some p).
  { unfold registered. cbn [links]. rewrite Hinfo. apply lookup_insert_eq. }
  rewrite (handler_enter_duplicate _ _ _ _ _ _ _ _ _ Hq1 Hvq Hold).
  assert (Hlook : <[q:=keyed iq mq]> (heap (registered w p ip mp m1)) !! p
                  = Some (set_closed (keyed ip mp) (Some (length (chans w))))).
  { rewrite list_lookup_insert_ne by done. unfold registered. cbn [heap].
    apply list_lookup_insert_eq. by eapply lookup_lt_Some. }
  rewrite Hlook. split; [reflexivity|].
  unfold emit, store, registered. cbn [links events].
  rewrite !inserts_cons, !handoffs_cons. cbn. by repeat split.
Qed.
End Settled.

(** ** [init], [stop] and the address [call] dials through a proxy *)

(** X11.  [init] installs an empty registry and a new, open stop channel
    before it starts the adapter, and returns what the adapter answers,
    error or not; the links in the store are not touched.  A [stop] after
    [init] closes that channel, stops the adapter and returns its error,
    in whatever state the registry was before [init].  A [stop] on a
    registry that has no stop channel (no [init] yet) panics and does not
    reach the adapter. *)
Theorem X11_init_then_stop w e e' :
  (links_init e w).2 = e ∧
  links (links_init e w).1 = ∅ ∧
  heap (links_init e w).1 = heap w ∧
  stopped (links_init e w).1 = Some (length (chans w)) ∧
  chans (links_init e w).1 = chans w ++ [false] ∧
  events (links_init e w).1 = EvTcpInit :: events w ∧
  (links_stop e' (links_init e w).1).2 = Returns e' ∧
  events (links_stop e' (links_init e w).1).1
  = EvTcpStop :: EvChanClose (length (chans w)) :: EvTcpInit :: events w ∧
  (stopped w = None → links_stop e' w = (w, Panics)).
Proof.
  unfold links_init, links_stop, close_chan. cbn.
  rewrite lookup_app_r by done. rewrite Nat.sub_diag. cbn.
  repeat split. by intros ->.
Qed.

Lemma Split_slash_0_no_slash s : "/"%char ∉ chars (Split_slash_0 s).
Proof.
  induction s as [|c s IH]; cbn; [apply not_elem_of_nil|].
  destruct (Ascii.eqb c "/") eqn:E; cbn; [apply not_elem_of_nil|].
  apply Ascii.eqb_neq in E. rewrite not_elem_of_cons. split; [congruence|done].
Qed.

Lemma Split_slash_0_id s : "/"%char ∉ chars s → Split_slash_0 s = s.
Proof.
  induction s as [|c s IH]; cbn; [done|].
  rewrite not_elem_of_cons. intros [Hc Hs].
  destruct (Ascii.eqb c "/") eqn:E.
  - apply Ascii.eqb_eq in E. congruence.
  - by rewrite IH.
Qed.

Lemma TrimRight_slash_id s : "/"%char ∉ chars s → TrimRight_slash s = s.
Proof.
  induction s as [|c s IH]; cbn; [done|].
  rewrite not_elem_of_cons. intros [Hc Hs]. rewrite IH by done.
  destruct s; [|done].
  destruct (Ascii.eqb c "/") eqn:E; [|done].
  apply Ascii.eqb_eq in E. congruence.
Qed.

Lemma TrimLeft_slash_id s : "/"%char ∉ chars s → TrimLeft_slash s = s.
Proof.
  destruct s as [|c s]; cbn [chars]; [done|].
  rewrite not_elem_of_cons. intros [Hc _].
  destruct c as [[] [] [] [] [] [] [] []]; try reflexivity.
  by destruct Hc.
Qed.

(** X16.  For the scheme socks, [call] dials the first part of the path,
    taken between the slashes around it, through the proxy named by the
    host of the URL, with the user and password of the URL when it has
    them, and returns nil.  The address it dials has no slash in it, and
    for a path that is a slash followed by an address it is this
    address. *)
Theorem X16_socks_dials_the_path u sintf w :
  Scheme u = "socks"%string →
  ∃ saddr o,
    links_call u sintf w = (emit (EvTcpCall saddr o sintf) w, None) ∧
    tcp_linkOptions o = call_options u ∧
    upgrade o = None ∧ socksProxyAddr o = Host u ∧
    socksProxyAuth o = (λ ui, (Username ui, Password ui)) <$> User u ∧
    ("/"%char ∉ chars saddr) ∧
    (∀ a, "/"%char ∉ chars a → Path u = String "/" a → saddr = a) ∧
    (∀ a, "/"%char ∉ chars a → Path u = a → saddr = a).
Proof.
  intros Hs. unfold links_call. rewrite Hs. cbn [String.eqb Ascii.eqb].
  cbn -[Trim_slash Split_slash_0].
  eexists _, _. split; [reflexivity|]. cbn -[Trim_slash Split_slash_0].
  do 3 (split; [done|]). split; [by destruct (User u)|].
  split; [apply Split_slash_0_no_slash|]. split.
  - intros a Ha ->. unfold Trim_slash. cbn [TrimLeft_slash].
    rewrite TrimLeft_slash_id, TrimRight_slash_id by done.
    by apply Split_slash_0_id.
  - intros a Ha ->. unfold Trim_slash.
    rewrite TrimLeft_slash_id, TrimRight_slash_id by done.
    by apply Split_slash_0_id.
Qed.

(** ** Sample runs of the further properties *)

Lemma X2_witness :
  pinnedEd25519Keys (call_options url_pin_a) = Some {[ key_a ]} ∧
  ((keyOf (version.key (remote_meta key_a 9)) = key_a ∧
    ∃ m, handler_validate sample_codec own_key (sample_pin_a 6)
           (answering (hello key_a 9) [] None)
         = Accepted (remote_meta key_a 9) m) ∨
   (keyOf (version.key (remote_meta key_a 9)) ≠ key_a ∧
    handler_validate sample_codec own_key (sample_pin_a 6)
      (answering (hello key_a 9) [] None)
    = Fatal "failed to connect: host sent ed25519 key that does not match pinned keys")).
Proof.
  apply (X2_pin_by_hex_text sample_codec own_key url_pin_a key_a
           (sample_pin_a 6) (answering (hello key_a 9) [] None)
           (remote_meta key_a 9)).
  - reflexivity.
  - vm_compute. reflexivity.
  - reflexivity.
  - reflexivity.
  - vm_compute. reflexivity.
  - reflexivity.
Defined.

Lemma X5_witness :
  handler_validate sample_codec own_key (sample_in 1)
    (answering (hello key_a 9) [EncodeToString key_a +:+ "A"; "0A0A"]%string
               None)
  = Forbidden.
Proof.
  apply (X5_allow_list_is_lower_case_text sample_codec own_key (sample_in 1)
           (answering (hello key_a 9)
                      [EncodeToString key_a +:+ "A"; "0A0A"]%string None)
           (remote_meta key_a 9)).
  - reflexivity.
  - reflexivity.
  - discriminate.
  - assert (Hup : ¬ lower_hex "A"%char).
    { unfold lower_hex. intros H. revert H.
      apply (bool_decide_unpack _). vm_compute. exact I. }
    apply Forall_cons; split; [|apply Forall_cons; split; [|constructor]].
    + intros H. apply Hup. rewrite Forall_forall in H. apply H.
      apply (bool_decide_unpack _). vm_compute. exact I.
    + intros H. apply Hup. rewrite Forall_forall in H. apply H.
      apply (bool_decide_unpack _). vm_compute. exact I.
  - vm_compute. reflexivity.
  - reflexivity.
  - intros pinned H. discriminate H.
Defined.

Lemma X6_witness :
  handler sample_codec own_key
          (one_link (sample_pinned 4 true {[ key_b ]})) 0
          (answering (hello_v1 key_a 9) allow_other None)
  = (emit (EvConnClose 4) (one_link (sample_pinned 4 true {[ key_b ]})),
     Returns (None, Some "remote node is incompatible version"%string)).
Proof.
  apply (X6_version_check_comes_first sample_codec own_key
           (one_link (sample_pinned 4 true {[ key_b ]})) 0
           (sample_pinned 4 true {[ key_b ]})
           (answering (hello_v1 key_a 9) allow_other None)
           (version.mkMetadata 1 0 key_a 9)).
  - reflexivity.
  - vm_compute. reflexivity.
  - reflexivity.
Defined.

Lemma X7_witness :
  handler deaf_codec own_key (mem sys_spawned) 0
          (answering (hello key_a 9) [] None)
  = (emit (EvConnClose 7) (mem sys_spawned),
     Returns (None, Some "failed to decode metadata"%string)).
Proof.
  apply (X7_undecodable_metadata_is_fatal deaf_codec own_key
           (mem sys_spawned) 0 (sample_out 7 3)
           (answering (hello key_a 9) [] None) (hello key_a 9)).
  - reflexivity.
  - reflexivity.
  - reflexivity.
  - reflexivity.
Defined.

Lemma X8_witness :
  let r := handler sample_codec own_key (mem sys_second) 1
                   (answering (hello key_a 2) [] None) in
  ∃ ch err, r.2 = Returns (ch, err) ∧ (ch = None ∨ err = None) ∧
    ∀ c, ch = Some c →
      handoffs (events r.1) = handoffs (events (mem sys_second)) ∧
      ∃ q l, q ≠ 1%nat ∧ live sys_second q ∧
             heap (mem sys_second) !! q = Some l ∧
             closed l = Some c ∧ chans (mem sys_second) !! c = Some false.
Proof.
  intros r.
  apply (X8_results_of_handler sample_codec own_key sys_second 1
           (sample_out 8 5) (answering (hello key_a 2) [] None) r.1 r.2
           reachable_second).
  - vm_compute. reflexivity.
  - vm_compute. reflexivity.
  - apply surjective_pairing.
Defined.


Lemma X10_witness :
  (∀ q l, heap (mem sys_second) !! q = Some l →
          length (key (info l)) = PublicKeySize) ∧
  (∀ q l, heap (mem sys_second) !! q = Some l →
          procs sys_second !! q = Some Created → key (info l) = zeroKey) ∧
  (∀ k p, links (mem sys_second) !! k = Some p →
          length (key k) = PublicKeySize).
Proof.
  exact (X10_keys_have_the_size_of_a_key sample_codec own_key sys_second
           reachable_second).
Defined.

Lemma X12_witness :
  (∀ p io, procs sys_second !! p = Some Created →
           (handler_enter sample_codec own_key (mem sys_second) p io).2
           ≠ Exit Panics) ∧
  (∀ p err, live sys_second p →
            (handler_leave (mem sys_second) p err).2 = Returns (None, err)).
Proof.
  exact (X12_handlers_do_not_panic sample_codec own_key sys_second
           reachable_second).
Defined.

Lemma X13_witness :
  let io := answering (hello key_a 2) [] None in
  handler sample_codec own_key (mem sys_second) 1 io
  = (emit (EvConnClose 8)
          (store 1 (keyed (sample_out 8 5) (remote_meta key_a 2))
                 (mem sys_second)),
     Returns (closed registered_link, None)) ∧
  handler_enter sample_codec own_key
                (handler_leave (mem sys_second) 0 None).1 1 io
  = (registered (handler_leave (mem sys_second) 0 None).1 1 (sample_out 8 5)
                (remote_meta key_a 2) 5,
     InTunnel (key (info (keyed (sample_out 8 5) (remote_meta key_a 2)))) 5).
Proof.
  intros io.
  apply (X13_key_is_free_after_departure sample_codec own_key sys_second 0
           registered_link None 1 (sample_out 8 5) io (remote_meta key_a 2) 5
           reachable_second); vm_compute; reflexivity.
Defined.

Lemma X14_witness :
  ∃ w1 w2,
    handler_enter sample_codec own_key two_links 0
                  (answering (hello key_a 9) [] None)
    = (w1, InTunnel (key (info (keyed (sample_out 7 3) (remote_meta key_a 9))))
                    9) ∧
    handler_enter sample_codec own_key w1 1
                  (answering (hello key_a 2) [] None)
    = (w2, Exit (Returns (Some (length (chans two_links)), None))) ∧
    links w2
    = <[info (keyed (sample_out 7 3) (remote_meta key_a 9)):=0%nat]>
        (links two_links) ∧
    inserts (events w2) = S (inserts (events two_links)) ∧
    handoffs (events w2) = S (handoffs (events two_links)).
Proof.
  apply (X14_first_comer_registers sample_codec own_key two_links 0 1
           (sample_out 7 3) (sample_out 8 5)
           (answering (hello key_a 9) [] None)
           (answering (hello key_a 2) [] None)
           (remote_meta key_a 9) (remote_meta key_a 2) 9 5).
  - discriminate.
  - reflexivity.
  - reflexivity.
  - vm_compute. reflexivity.
  - vm_compute. reflexivity.
  - vm_compute. reflexivity.
  - vm_compute. reflexivity.
Defined.

Lemma X15_witness :
  lifecycle sys_second 0 registered_link ∧
  lifecycle sys_second 1 (sample_out 8 5).
Proof.
  split.
  - apply (X15_life_of_the_closure_channel sample_codec own_key sys_second 0
             registered_link reachable_second).
    vm_compute. reflexivity.
  - apply (X15_life_of_the_closure_channel sample_codec own_key sys_second 1
             (sample_out 8 5) reachable_second).
    vm_compute. reflexivity.
Defined.

Lemma X16_witness :
  ∃ saddr o,
    links_call url_socks "eth0" world0
    = (emit (EvTcpCall saddr o "eth0") world0, None) ∧
    tcp_linkOptions o = call_options url_socks ∧
    upgrade o = None ∧ socksProxyAddr o = Host url_socks ∧
    socksProxyAuth o
    = (λ ui, (Username ui, Password ui)) <$> User url_socks ∧
    ("/"%char ∉ chars saddr) ∧
    (∀ a, "/"%char ∉ chars a → Path url_socks = String "/" a → saddr = a) ∧
    (∀ a, "/"%char ∉ chars a → Path url_socks = a → saddr = a).
Proof.
  apply (X16_socks_dials_the_path url_socks "eth0" world0). reflexivity.
Defined.

Lemma X1_witness :
  (key_a ∈ ({[ key_a ]} : gset keyArray) ↔
   ∃ pubkeys s bs,
     Query url_pin_a !! "ed25519"%string = Some pubkeys ∧
     s ∈ pubkeys ∧ DecodeString s = Some bs ∧ key_a = keyOf bs) ∧
  (key_a ∈ ({[ key_a ]} : gset keyArray) → length key_a = PublicKeySize).
Proof.
  apply (proj1 (X1_pinned_keys_of_call url_pin_a) {[ key_a ]} key_a).
  apply call_pins_single; [reflexivity|].
  vm_compute. reflexivity.
Defined.

Lemma X3_witness :
  metric (call_options url_metric_7) = 7.
Proof.
  apply (proj1 (proj2 (proj2 (X3_metric_of_call url_metric_7))) 7%N).
  - vm_compute. discriminate.
  - vm_compute. reflexivity.
Defined.

Lemma X4_witness :
  handler_validate sample_codec own_key (sample_in 1)
    (answering (hello key_a 9) allow_other None)
  = Forbidden.
Proof.
  apply (proj2 (X4_silent_refusal_exactly sample_codec own_key (sample_in 1)
                  (answering (hello key_a 9) allow_other None))).
  exists (remote_meta key_a 9).
  split; [vm_compute; reflexivity|].
  split; [reflexivity|].
  split; [intros pinned H; discriminate H|].
  split; [reflexivity|].
  split; [reflexivity|].
  split; [discriminate|].
  apply (bool_decide_unpack _). vm_compute. exact I.
Defined.

Lemma X11_witness :
  links_stop None world0 = (world0, Panics).
Proof.
  destruct (X11_init_then_stop world0 None None)
    as (_ & _ & _ & _ & _ & _ & _ & _ & H).
  apply H. reflexivity.
Defined.
